(** * WattWise community forum: vote ledger, counters and summaries

    A shallow embedding of [ForumService.ts] over a model of the document
    store it talks to.  The store is a record of collections; every SDK
    call the service awaits is a step of a state-and-rejection monad that
    logs the call, may be rejected by the store, and otherwise reads or
    writes the collections. *)

From Stdlib Require Import ZArith.
From stdpp Require Import gmap strings list fin_maps sorting.

Local Open Scope Z_scope.

(** ** Documents

    The document types are declared in [../types] and the collection
    names in [../constants], neither of which is among the sources; the
    records below have the fields that the service itself reads and
    writes. *)

(** [value: 1 | -1], with [Up] for 1 and [Down] for -1 *)
Inductive VoteValue := Up | Down.

Global Instance VoteValue_eq_dec : EqDecision VoteValue.
Proof. solve_decision. Defined.

(** A document of [forumPosts/{postId}/votes/{uid}].  The service reads it
    as [data()?.value ?? null], so the field may be missing. *)
Record VoteData := { vd_value : option VoteValue }.

(** A document of [forumPosts], with the fields [createPost] writes. *)
Record ForumPost := {
  uid : string;
  author : string;
  title : string;
  content : string;
  createdAt : Z;
  likesCount : Z;
  upVotes : Z;
  downVotes : Z;
  mediaUrl : option string;
}.

(** A document of [notifications]. *)
Inductive NotificationType := upvote | downvote.

Record NotificationData := {
  n_type : NotificationType;
  toUid : string;
  fromUid : string;
  n_postId : string;
  n_createdAt : Z;
}.

(** Documents of [postSummaries] and [commentSummaries]. *)
Record PostSummary := {
  ps_postId : string;
  ps_summary : string;
  ps_createdAt : Z;
  ps_updatedAt : Z;
}.

Record CommentSummary := {
  cs_postId : string;
  cs_summary : string;
  commentCount : nat;
  cs_createdAt : Z;
  cs_updatedAt : Z;
}.

(** What the summary queries filter and order on. *)
Class Summary (D : Type) := {
  postIdOf : D → string;
  updatedAtOf : D → Z;
}.

Global Instance PostSummary_Summary : Summary PostSummary :=
  {| postIdOf := ps_postId; updatedAtOf := ps_updatedAt |}.
Global Instance CommentSummary_Summary : Summary CommentSummary :=
  {| postIdOf := cs_postId; updatedAtOf := cs_updatedAt |}.

(** [ForumComment], as [generateCommentSummary] uses it. *)
Record ForumComment := {
  c_id : string;
  c_postId : string;
  c_uid : string;
  c_author : string;
  c_content : string;
}.

(** ** Calls to the store and to the summarizer *)

Inductive Collection :=
  FORUM_POSTS | VOTES | NOTIFICATIONS | POST_SUMMARIES | COMMENT_SUMMARIES.

Inductive DocRef :=
| PostRef (postId : string)
| VoteRef (postId uid : string).

(** The fields of an [updateDoc] on a post: each one an [increment(n)]. *)
Inductive PostField := F_upVotes | F_downVotes.
Inductive FieldValue := increment (n : Z).
Definition PostFields := list (PostField * FieldValue).

Inductive StoreCall :=
| GetDoc (r : DocRef)
| DeleteDoc (r : DocRef)
| UpdateDoc (r : DocRef) (fields : PostFields)
| SetDoc (r : DocRef)
| AddDoc (c : Collection)
| GetDocs (c : Collection) (postId : string).

Inductive SummaryType := post_t | comments_t.

Record SummarizeRequest := {
  sr_content : string;
  sr_type : SummaryType;
  maxLength : nat;
}.

(** The three ways [summarizeContent] can end: it throws, it resolves to
    nothing, or it resolves to an object with a [summary] field. *)
Inductive GenOutcome :=
| GenThrows
| GenNone
| GenSome (summary : string).

(** ** The world *)

Record World := {
  posts : gmap string ForumPost;
  votes : gmap (string * string) VoteData;
  notifications : gmap string NotificationData;
  postSummaries : gmap string PostSummary;
  commentSummaries : gmap string CommentSummary;
  (** server time, read by [serverTimestamp()] *)
  now : Z;
  (** for each coming store call, whether the store rejects it; past the
      end of the list the store is available *)
  faults : list bool;
  (** the store calls made so far, oldest first *)
  trace : list StoreCall;
  (** the requests sent to the summarizer so far, oldest first *)
  genLog : list SummarizeRequest;
}.

Definition set_posts (f : gmap string ForumPost → gmap string ForumPost) (w : World) : World :=
  {| posts := f (posts w); votes := votes w; notifications := notifications w;
     postSummaries := postSummaries w; commentSummaries := commentSummaries w;
     now := now w; faults := faults w; trace := trace w; genLog := genLog w |}.

Definition set_votes (f : gmap (string * string) VoteData → gmap (string * string) VoteData)
    (w : World) : World :=
  {| posts := posts w; votes := f (votes w); notifications := notifications w;
     postSummaries := postSummaries w; commentSummaries := commentSummaries w;
     now := now w; faults := faults w; trace := trace w; genLog := genLog w |}.

Definition set_notifications
    (f : gmap string NotificationData → gmap string NotificationData) (w : World) : World :=
  {| posts := posts w; votes := votes w; notifications := f (notifications w);
     postSummaries := postSummaries w; commentSummaries := commentSummaries w;
     now := now w; faults := faults w; trace := trace w; genLog := genLog w |}.

Definition set_postSummaries
    (f : gmap string PostSummary → gmap string PostSummary) (w : World) : World :=
  {| posts := posts w; votes := votes w; notifications := notifications w;
     postSummaries := f (postSummaries w); commentSummaries := commentSummaries w;
     now := now w; faults := faults w; trace := trace w; genLog := genLog w |}.

Definition set_commentSummaries
    (f : gmap string CommentSummary → gmap string CommentSummary) (w : World) : World :=
  {| posts := posts w; votes := votes w; notifications := notifications w;
     postSummaries := postSummaries w; commentSummaries := f (commentSummaries w);
     now := now w; faults := faults w; trace := trace w; genLog := genLog w |}.

Definition set_now (t : Z) (w : World) : World :=
  {| posts := posts w; votes := votes w; notifications := notifications w;
     postSummaries := postSummaries w; commentSummaries := commentSummaries w;
     now := t; faults := faults w; trace := trace w; genLog := genLog w |}.

Definition set_faults (fs : list bool) (w : World) : World :=
  {| posts := posts w; votes := votes w; notifications := notifications w;
     postSummaries := postSummaries w; commentSummaries := commentSummaries w;
     now := now w; faults := fs; trace := trace w; genLog := genLog w |}.

Definition log_call (c : StoreCall) (w : World) : World :=
  {| posts := posts w; votes := votes w; notifications := notifications w;
     postSummaries := postSummaries w; commentSummaries := commentSummaries w;
     now := now w; faults := faults w; trace := trace w ++ [c]; genLog := genLog w |}.

Definition log_gen (r : SummarizeRequest) (w : World) : World :=
  {| posts := posts w; votes := votes w; notifications := notifications w;
     postSummaries := postSummaries w; commentSummaries := commentSummaries w;
     now := now w; faults := faults w; trace := trace w; genLog := genLog w ++ [r] |}.

(** ** Promises: state passing with rejection *)

Inductive Rejection :=
| Unavailable      (* the store rejected the call *)
| NotFound         (* [updateDoc] on a document that does not exist *)
| GeneratorError.  (* the summarizer threw *)

Inductive Settled (A : Type) :=
| Fulfilled (a : A)
| Rejected (e : Rejection).
Arguments Fulfilled {A} a.
Arguments Rejected {A} e.

Definition Promise (A : Type) : Type := World → Settled A * World.

Definition resolve {A} (a : A) : Promise A := λ w, (Fulfilled a, w).
Definition reject {A} (e : Rejection) : Promise A := λ w, (Rejected e, w).

(** [await m] followed by the rest of the function body. *)
Definition await {A B} (m : Promise A) (k : A → Promise B) : Promise B :=
  λ w, match m w with
       | (Fulfilled a, w') => k a w'
       | (Rejected e, w') => (Rejected e, w')
       end.

(** [try { body } catch (error) { handler }] *)
Definition try_catch {A} (body : Promise A) (handler : Rejection → Promise A) : Promise A :=
  λ w, match body w with
       | (Fulfilled a, w') => (Fulfilled a, w')
       | (Rejected e, w') => handler e w'
       end.

Definition gets {A} (f : World → A) : Promise A := λ w, (Fulfilled (f w), w).
Definition modify (f : World → World) : Promise unit := λ w, (Fulfilled tt, f w).

Global Instance Promise_ret : MRet Promise := @resolve.
Global Instance Promise_bind : MBind Promise := λ A B k m, await m k.

Definition exec {A} (m : Promise A) (w : World) : World := (m w).2.
Definition outcome {A} (m : Promise A) (w : World) : Settled A := (m w).1.

(** ** The store *)

(** Every call is logged, then the store decides whether it serves it. *)
Definition request (c : StoreCall) : Promise unit :=
  λ w, let w' := log_call c w in
       match faults w with
       | true :: fs => (Rejected Unavailable, set_faults fs w')
       | false :: fs => (Fulfilled tt, set_faults fs w')
       | [] => (Fulfilled tt, w')
       end.

Definition getDoc_vote (postId uid : string) : Promise (option VoteData) :=
  request (GetDoc (VoteRef postId uid)) ;;
  gets (λ w, votes w !! (postId, uid)).

Definition deleteDoc_vote (postId uid : string) : Promise unit :=
  request (DeleteDoc (VoteRef postId uid)) ;;
  modify (set_votes (delete (postId, uid))).

(** [setDoc(ref, { value }, { merge: true })]: creates the document or
    overwrites its [value] field. *)
Definition setDoc_vote_merge (postId uid : string) (value : VoteValue) : Promise unit :=
  request (SetDoc (VoteRef postId uid)) ;;
  modify (set_votes (insert (postId, uid) {| vd_value := Some value |})).

Definition apply_field (p : ForumPost) (f : PostField * FieldValue) : ForumPost :=
  match f with
  | (F_upVotes, increment n) =>
      {| uid := uid p; author := author p; title := title p; content := content p;
         createdAt := createdAt p; likesCount := likesCount p;
         upVotes := upVotes p + n; downVotes := downVotes p; mediaUrl := mediaUrl p |}
  | (F_downVotes, increment n) =>
      {| uid := uid p; author := author p; title := title p; content := content p;
         createdAt := createdAt p; likesCount := likesCount p;
         upVotes := upVotes p; downVotes := downVotes p + n; mediaUrl := mediaUrl p |}
  end.

(** [updateDoc] rejects when the document does not exist; the increments
    are applied as they are, with no lower bound. *)
Definition updateDoc_post (postId : string) (fields : PostFields) : Promise unit :=
  request (UpdateDoc (PostRef postId) fields) ;;
  snap ← gets (λ w, posts w !! postId);
  match snap with
  | Some p => modify (set_posts (insert postId (foldl apply_field p fields)))
  | None => reject NotFound
  end.

(** ** Voting system *)

(** [existingSnap.exists() ? (existingSnap.data()?.value ?? null) : null] *)
Definition prev_of (existingSnap : option VoteData) : option VoteValue :=
  match existingSnap with Some d => vd_value d | None => None end.

Definition vote (postId uid : string) (value : VoteValue) : Promise unit :=
  existingSnap ← getDoc_vote postId uid;
  let prev := prev_of existingSnap in
  if decide (prev = Some value) then
    (* Unvote *)
    deleteDoc_vote postId uid ;;
    let fields := match value with
                  | Up => [(F_upVotes, increment (-1))]
                  | Down => [(F_downVotes, increment (-1))]
                  end in
    updateDoc_post postId fields
  else
    (* Set or switch vote *)
    let updateFields :=
      match prev with
      | None => match value with
                | Up => [(F_upVotes, increment 1)]
                | Down => [(F_downVotes, increment 1)]
                end
      | Some _ => match value with
                  | Up => [(F_upVotes, increment 1); (F_downVotes, increment (-1))]
                  | Down => [(F_downVotes, increment 1); (F_upVotes, increment (-1))]
                  end
      end in
    updateDoc_post postId updateFields ;;
    setDoc_vote_merge postId uid value.

(** ** Collections with generated ids *)

(** [addDoc]: the store picks an id that is not in use and resolves
    [serverTimestamp()] fields to the server time of the write; the clock
    has moved on by the next write. *)
Definition addDoc {D} (c : Collection) (coll : World → gmap string D)
    (set_coll : (gmap string D → gmap string D) → World → World)
    (data : Z → D) : Promise string :=
  request (AddDoc c) ;;
  id ← gets (λ w, fresh (dom (coll w)));
  modify (λ w, set_now (now w + 1) (set_coll (insert id (data (now w))) w)) ;;
  mret id.

(** Which of two documents [orderBy('updatedAt', 'desc')] lists first;
    the store breaks ties on the document id, in the same direction. *)
Definition listed_first {D} `{Summary D} (a b : string * D) : string * D :=
  if updatedAtOf a.2 <? updatedAtOf b.2 then b
  else if updatedAtOf b.2 <? updatedAtOf a.2 then a
  else if String.ltb a.1 b.1 then b else a.

(** [where('postId', '==', postId), orderBy('updatedAt', 'desc'), limit(1)] *)
Definition latest_for {D} `{Summary D} (postId : string) (m : gmap string D)
    : list (string * D) :=
  match filter (λ kv, postIdOf kv.2 = postId) (map_to_list m) with
  | [] => []
  | d :: ds => [foldl listed_first d ds]
  end.

Definition getDocs {D} `{Summary D} (c : Collection) (coll : World → gmap string D)
    (postId : string) : Promise (list (string * D)) :=
  request (GetDocs c postId) ;;
  gets (λ w, latest_for postId (coll w)).

(** ** Notifications *)

Definition createNotification (type : NotificationType) (toUid fromUid postId : string)
    : Promise unit :=
  addDoc NOTIFICATIONS notifications set_notifications
    (λ t, {| n_type := type; toUid := toUid; fromUid := fromUid;
             n_postId := postId; n_createdAt := t |}) ;;
  mret tt.

(** ** Summarization functions *)

Definition newline : string := String (Ascii.ascii_of_nat 10) EmptyString.  (* line feed *)

(** [comments.map(comment => `${comment.author}: ${comment.content}`).join('\n\n')] *)
Definition combinedContent (comments : list ForumComment) : string :=
  String.concat (newline +:+ newline)
    (map (λ comment, c_author comment +:+ ": " +:+ c_content comment) comments).

Section Summarization.

(** [huggingFaceService.summarizeContent], a remote service: how it ends
    may depend on the request and on how many requests came before. *)
Variable summarizeContent : nat → SummarizeRequest → GenOutcome.

Definition call_summarizeContent (req : SummarizeRequest) : Promise (option string) :=
  λ w, let w' := log_gen req w in
       match summarizeContent (length (genLog w)) req with
       | GenThrows => (Rejected GeneratorError, w')
       | GenNone => (Fulfilled None, w')
       | GenSome summary => (Fulfilled (Some summary), w')
       end.

Definition generatePostSummary (postId content : string) : Promise (option string) :=
  try_catch
    (summary ← call_summarizeContent
       {| sr_content := content; sr_type := post_t; maxLength := 200 |};
     match summary with
     | Some text =>
         addDoc POST_SUMMARIES postSummaries set_postSummaries
           (λ t, {| ps_postId := postId; ps_summary := text;
                    ps_createdAt := t; ps_updatedAt := t |}) ;;
         mret (Some text)
     | None => mret None
     end)
    (λ error, mret None).

Definition generateCommentSummary (postId : string) (comments : list ForumComment)
    : Promise (option string) :=
  try_catch
    (summary ← call_summarizeContent
       {| sr_content := combinedContent comments; sr_type := comments_t;
          maxLength := 250 |};
     match summary with
     | Some text =>
         addDoc COMMENT_SUMMARIES commentSummaries set_commentSummaries
           (λ t, {| cs_postId := postId; cs_summary := text;
                    commentCount := length comments;
                    cs_createdAt := t; cs_updatedAt := t |}) ;;
         mret (Some text)
     | None => mret None
     end)
    (λ error, mret None).

End Summarization.

(** ** Get summaries *)

Definition getPostSummary (postId : string) : Promise (option (string * PostSummary)) :=
  try_catch
    (snapshot ← getDocs POST_SUMMARIES postSummaries postId;
     match head snapshot with
     | Some d => mret (Some d)
     | None => mret None
     end)
    (λ error, mret None).

Definition getCommentSummary (postId : string)
    : Promise (option (string * CommentSummary)) :=
  try_catch
    (snapshot ← getDocs COMMENT_SUMMARIES commentSummaries postId;
     match head snapshot with
     | Some d => mret (Some d)
     | None => mret None
     end)
    (λ error, mret None).

(** ** Runs *)

(** The requests of one voter on one subject, one call after the other;
    a rejected call does not stop the caller from making the next one. *)
Fixpoint run_votes (postId uid : string) (values : list VoteValue) (w : World) : World :=
  match values with
  | [] => w
  | value :: rest => run_votes postId uid rest (exec (vote postId uid value) w)
  end.

(** Requests of any voters on any subjects. *)
Fixpoint run_calls (calls : list (string * string * VoteValue)) (w : World) : World :=
  match calls with
  | [] => w
  | (postId, uid, value) :: rest => run_calls rest (exec (vote postId uid value) w)
  end.

(** ** Observations *)

Definition previous_vote (w : World) (postId uid : string) : option VoteValue :=
  prev_of (votes w !! (postId, uid)).

Definition counters (postId : string) (w : World) : option (Z * Z) :=
  (λ p, (upVotes p, downVotes p)) <$> posts w !! postId.

(** ** The transitions and the delta table, as the specification words them *)

Inductive VoteOutcome :=
| Cast (v : VoteValue)          (* None -> v *)
| Unvote (v : VoteValue)        (* v -> v *)
| Switch (target : VoteValue).  (* -v -> v *)

Definition classify (previous : option VoteValue) (requested : VoteValue) : VoteOutcome :=
  match previous with
  | None => Cast requested
  | Some p => if decide (p = requested) then Unvote requested else Switch requested
  end.

(** (upVotes delta, downVotes delta) *)
Definition delta_table (o : VoteOutcome) : Z * Z :=
  match o with
  | Cast Up => (1, 0)
  | Cast Down => (0, 1)
  | Unvote Up => (-1, 0)
  | Unvote Down => (0, -1)
  | Switch Down => (-1, 1)
  | Switch Up => (1, -1)
  end.

Definition add_delta (d c : Z * Z) : Z * Z := (c.1 + d.1, c.2 + d.2).

Definition sum_deltas (os : list VoteOutcome) : Z * Z :=
  foldr (λ o acc, add_delta (delta_table o) acc) (0, 0) os.

(** The transitions classified along a run, each against the ledger as the
    call finds it. *)
Fixpoint classified (postId uid : string) (values : list VoteValue) (w : World)
    : list VoteOutcome :=
  match values with
  | [] => []
  | value :: rest =>
      classify (previous_vote w postId uid) value
      :: classified postId uid rest (exec (vote postId uid value) w)
  end.

(** The store calls one execution makes, in order. *)
Definition calls_of {A} (m : Promise A) (w : World) : list StoreCall :=
  drop (length (trace w)) (trace (exec m w)).

(** A write to a vote record, and a write to a subject's counters. *)
Definition is_ledger_write (c : StoreCall) : bool :=
  match c with
  | DeleteDoc (VoteRef _ _) | SetDoc (VoteRef _ _) => true
  | _ => false
  end.

Definition is_counter_write (c : StoreCall) : bool :=
  match c with
  | UpdateDoc (PostRef _) _ => true
  | _ => false
  end.

(** Some call satisfying [P] is made before some call satisfying [Q]. *)
Fixpoint occurs_before (P Q : StoreCall → bool) (calls : list StoreCall) : bool :=
  match calls with
  | [] => false
  | c :: rest => (P c && existsb Q rest) || occurs_before P Q rest
  end.

(** How many vote records on a subject carry a given value. *)
Definition tally (v : VoteValue) (postId : string) (vs : gmap (string * string) VoteData)
    : nat :=
  size (filter (λ kv, kv.1.1 = postId ∧ vd_value kv.2 = Some v) vs).

(** What one record contributes to a tally. *)
Definition counted (v : VoteValue) (postId : string) (k : string * string) (d : VoteData)
    : nat :=
  if decide (k.1 = postId ∧ vd_value d = Some v) then 1%nat else 0%nat.

(** Ledger and counters are in step: each counter of each subject covers
    the vote records that carry its value. *)
Definition in_step (w : World) : Prop :=
  ∀ postId p, posts w !! postId = Some p →
    Z.of_nat (tally Up postId (votes w)) ≤ upVotes p
    ∧ Z.of_nat (tally Down postId (votes w)) ≤ downVotes p.

(** An observation of the world that an execution leaves as it found it. *)
Definition preserves {A X} (obs : World → X) (m : Promise A) : Prop :=
  ∀ w, obs (exec m w) = obs w.

(** An observation that neither the call log nor the store's fault
    schedule is part of. *)
Definition store_blind {X} (obs : World → X) : Prop :=
  (∀ c w, obs (log_call c w) = obs w) ∧ (∀ fs w, obs (set_faults fs w) = obs w).

(** A read of the store. *)
Definition is_query (c : StoreCall) : bool :=
  match c with
  | GetDoc _ | GetDocs _ _ => true
  | _ => false
  end.

(** The summarizer threw or resolved to nothing. *)
Definition gen_failed (o : GenOutcome) : bool :=
  match o with
  | GenThrows | GenNone => true
  | GenSome _ => false
  end.

(** A summarizer that always answers. *)
Definition gen_echo : nat → SummarizeRequest → GenOutcome :=
  λ _ req, GenSome (sr_content req).

(** A summarizer that throws on its first request and resolves to nothing
    afterwards. *)
Definition gen_down : nat → SummarizeRequest → GenOutcome :=
  λ n _, match n with O => GenThrows | S _ => GenNone end.

(** What a fulfilled call resolved to, if it resolved to something. *)
Definition outcome_value {A} (m : Promise (option A)) (w : World) : option A :=
  match outcome m w with
  | Fulfilled r => r
  | Rejected _ => None
  end.

Definition two_comments : list ForumComment :=
  [{| c_id := "c1"; c_postId := "p"; c_uid := "alice"; c_author := "Alice";
      c_content := "Nice" |};
   {| c_id := "c2"; c_postId := "p"; c_uid := "bob"; c_author := "Bob";
      c_content := "How much?" |}].

(** A record is the latest summary of a post in a collection: it is a
    summary of that post and none of that post has a greater [updatedAt];
    there is no latest summary when the post has none. *)
Definition is_latest_for {D} `{Summary D} (postId : string) (m : gmap string D)
    (r : option (string * D)) : Prop :=
  match r with
  | Some (id, d) =>
      m !! id = Some d ∧ postIdOf d = postId
      ∧ ∀ id' d', m !! id' = Some d' → postIdOf d' = postId →
          updatedAtOf d' ≤ updatedAtOf d
  | None => ∀ id d, m !! id = Some d → postIdOf d ≠ postId
  end.

(** The vote records of one voter on one subject. *)
Definition records_of (postId uid : string) (vs : gmap (string * string) VoteData)
    : list (string * string * VoteData) :=
  filter (λ kv, kv.1 = (postId, uid)) (map_to_list vs).

(** The post after the increments of one transition. *)
Definition bump (d : Z * Z) (p : ForumPost) : ForumPost :=
  {| uid := uid p; author := author p; title := title p; content := content p;
     createdAt := createdAt p; likesCount := likesCount p;
     upVotes := upVotes p + d.1; downVotes := downVotes p + d.2; mediaUrl := mediaUrl p |}.

(** ** Worlds to run the service on *)

Definition a_post (up down : Z) : ForumPost :=
  {| uid := "owner"; author := "Owner"; title := "Solar"; content := "Panels";
     createdAt := 0; likesCount := 0; upVotes := up; downVotes := down;
     mediaUrl := None |}.

Definition world_of (ps : gmap string ForumPost) (vs : gmap (string * string) VoteData)
    (fs : list bool) : World :=
  {| posts := ps; votes := vs; notifications := ∅; postSummaries := ∅;
     commentSummaries := ∅; now := 100; faults := fs; trace := []; genLog := [] |}.

(** A new post, nobody has voted. *)
Definition w_new : World := world_of {["p" := a_post 0 0]} ∅ [].

(** alice has an up-vote on the post, and the counter shows it. *)
Definition w_voted : World :=
  world_of {["p" := a_post 1 0]} {[("p", "alice") := {| vd_value := Some Up |}]} [].

(** alice has an up-vote on the post, and the counter has lost it. *)
Definition w_desync : World :=
  world_of {["p" := a_post 0 0]} {[("p", "alice") := {| vd_value := Some Up |}]} [].

(** Three stored summaries, two of them of post [p]. *)
Definition w_summaries (fs : list bool) : World :=
  {| posts := {["p" := a_post 0 0]}; votes := ∅; notifications := ∅;
     postSummaries :=
       {["s1" := {| ps_postId := "p"; ps_summary := "old"; ps_createdAt := 5;
                    ps_updatedAt := 5 |};
         "s2" := {| ps_postId := "p"; ps_summary := "new"; ps_createdAt := 9;
                    ps_updatedAt := 9 |};
         "s3" := {| ps_postId := "q"; ps_summary := "other"; ps_createdAt := 20;
                    ps_updatedAt := 20 |}]};
     commentSummaries := ∅; now := 100; faults := fs; trace := []; genLog := [] |}.

(** * The rest of [ForumService.ts] *)

(** The store decides whether it serves a call that the call log of the
    voting system has no entry for. *)
Definition served : Promise unit :=
  λ w, match faults w with
       | true :: fs => (Rejected Unavailable, set_faults fs w)
       | false :: fs => (Fulfilled tt, set_faults fs w)
       | [] => (Fulfilled tt, w)
       end.

(** [mediaUrl || null]: a missing argument and the empty string are both
    stored as [null]. *)
Definition or_null (mediaUrl : option string) : option string :=
  match mediaUrl with
  | Some EmptyString => None
  | Some url => Some url
  | None => None
  end.

(** The fields of an [updateDoc] that sets [title] and [content]. *)
Definition set_text (t c : string) (p : ForumPost) : ForumPost :=
  {| uid := uid p; author := author p; title := t; content := c;
     createdAt := createdAt p; likesCount := likesCount p;
     upVotes := upVotes p; downVotes := downVotes p; mediaUrl := mediaUrl p |}.

(** A document of [forumComments]. *)
Record CommentData := {
  cd_postId : string;
  cd_uid : string;
  cd_author : string;
  cd_content : string;
  cd_createdAt : Z;
}.

Definition set_content (c : string) (d : CommentData) : CommentData :=
  {| cd_postId := cd_postId d; cd_uid := cd_uid d; cd_author := cd_author d;
     cd_content := c; cd_createdAt := cd_createdAt d |}.

(** The store with the comments collection beside the collections of the
    voting system. *)
Record Forum := {
  world : World;
  comments : gmap string CommentData;
}.

Definition set_world (f : World → World) (s : Forum) : Forum :=
  {| world := f (world s); comments := comments s |}.

Definition set_comments (f : gmap string CommentData → gmap string CommentData)
    (s : Forum) : Forum :=
  {| world := world s; comments := f (comments s) |}.

Definition Action (A : Type) : Type := Forum → Settled A * Forum.

Definition act_ret {A} (a : A) : Action A := λ s, (Fulfilled a, s).
Definition act_reject {A} (e : Rejection) : Action A := λ s, (Rejected e, s).
Definition act_gets {A} (f : Forum → A) : Action A := λ s, (Fulfilled (f s), s).
Definition act_modify (f : Forum → Forum) : Action unit := λ s, (Fulfilled tt, f s).

Definition act_bind {A B} (m : Action A) (k : A → Action B) : Action B :=
  λ s, match m s with
       | (Fulfilled a, s') => k a s'
       | (Rejected e, s') => (Rejected e, s')
       end.

Global Instance Action_ret : MRet Action := @act_ret.
Global Instance Action_bind : MBind Action := λ A B k m, act_bind m k.

(** A call of the voting system, made on the whole store. *)
Definition lift {A} (m : Promise A) : Action A :=
  λ s, ((m (world s)).1, {| world := (m (world s)).2; comments := comments s |}).

Definition act_exec {A} (m : Action A) (s : Forum) : Forum := (m s).2.
Definition act_outcome {A} (m : Action A) (s : Forum) : Settled A := (m s).1.

(** [Promise.all]: every promise of the array has been started, so every
    one runs, in the order of the array; the result is rejected with the
    first rejection, if there is one. *)
Fixpoint promise_all {A} (ms : list (Action A)) : Action (list A) :=
  match ms with
  | [] => act_ret []
  | m :: rest =>
      λ s, let '(r, s1) := m s in
           let '(rs, s2) := promise_all rest s1 in
           (match r, rs with
            | Fulfilled a, Fulfilled others => Fulfilled (a :: others)
            | Rejected e, _ => Rejected e
            | Fulfilled _, Rejected e => Rejected e
            end, s2)
  end.

(** The documents of a snapshot come in the order of their ids when the
    query names no other order. *)
Definition by_id {D} (a b : string * D) : Prop := String.le a.1 b.1.

Definition docs_by_id {D} (m : gmap string D) : list (string * D) :=
  merge_sort by_id (map_to_list m).

(** [query(collection(db, FORUM_COMMENTS), where('postId', '==', postId))] *)
Definition comments_where (postId : string) (m : gmap string CommentData)
    : list (string * CommentData) :=
  filter (λ kv, cd_postId kv.2 = postId) (docs_by_id m).

Definition deleteDoc_comment (commentId : string) : Action unit :=
  lift served ;;
  act_modify (set_comments (delete commentId)).

(** [orderBy('createdAt', 'asc')]: ties are broken on the id, in the same
    direction. *)
Definition oldest_first (a b : string * CommentData) : Prop :=
  cd_createdAt a.2 < cd_createdAt b.2
  ∨ (cd_createdAt a.2 = cd_createdAt b.2 ∧ String.le a.1 b.1).

(** [orderBy('createdAt', 'desc')] *)
Definition newest_first (a b : string * ForumPost) : Prop :=
  createdAt b.2 < createdAt a.2
  ∨ (createdAt a.2 = createdAt b.2 ∧ String.le b.1 a.1).

(** What the listener of [subscribeToPosts] hands to the callback when
    the store is in state [w]: every post with its id, newest first. *)
Definition subscribeToPosts (w : World) : list (string * ForumPost) :=
  merge_sort newest_first (map_to_list (posts w)).

(** What the listener of [subscribeToComments] hands to the callback:
    the comments of the post with their ids, oldest first. *)
Definition subscribeToComments (postId : string) (s : Forum)
    : list (string * CommentData) :=
  merge_sort oldest_first
    (filter (λ kv, cd_postId kv.2 = postId) (map_to_list (comments s))).

(** What the listeners of [subscribeToPostSummary] and
    [subscribeToCommentSummary] hand to the callback. *)
Definition subscribeToPostSummary (postId : string) (w : World)
    : option (string * PostSummary) :=
  head (latest_for postId (postSummaries w)).

Definition subscribeToCommentSummary (postId : string) (w : World)
    : option (string * CommentSummary) :=
  head (latest_for postId (commentSummaries w)).

Section Service.

(** [String.prototype.trim], a built-in of the language. *)
Context (trim : string → string).

(** Posts CRUD operations *)

Definition createPost (uid author title content : string) (mediaUrl : option string)
    : Promise unit :=
  addDoc FORUM_POSTS posts set_posts
    (λ t, {| uid := uid; author := author; title := trim title;
             content := trim content; createdAt := t; likesCount := 0;
             upVotes := 0; downVotes := 0; mediaUrl := or_null mediaUrl |}) ;;
  mret tt.

Definition updatePost (postId title content : string) : Promise unit :=
  served ;;
  snap ← gets (λ w, posts w !! postId);
  match snap with
  | Some p => modify (set_posts (insert postId (set_text (trim title) (trim content) p)))
  | None => reject NotFound
  end.

Definition deletePost (postId : string) : Action unit :=
  (* Delete the post *)
  lift (served ;; modify (set_posts (delete postId))) ;;
  (* Delete associated comments *)
  lift served ;;
  commentsSnapshot ← act_gets (λ s, comments_where postId (comments s));
  promise_all (map (λ d, deleteDoc_comment d.1) commentsSnapshot) ;;
  mret tt.

(** Comments operations *)

Definition createComment (postId uid author content : string) : Action unit :=
  lift served ;;
  id ← act_gets (λ s, fresh (dom (comments s)));
  act_modify (λ s,
    set_world (λ w, set_now (now w + 1) w)
      (set_comments
         (insert id {| cd_postId := postId; cd_uid := uid; cd_author := author;
                       cd_content := trim content;
                       cd_createdAt := now (world s) |}) s)).

Definition updateComment (commentId content : string) : Action unit :=
  lift served ;;
  snap ← act_gets (λ s, comments s !! commentId);
  match snap with
  | Some d => act_modify (set_comments (insert commentId (set_content (trim content) d)))
  | None => act_reject NotFound
  end.

Definition deleteComment (commentId : string) : Action unit :=
  deleteDoc_comment commentId.

(** A call of the service. *)
Inductive ForumOp :=
| OpVote (postId uid : string) (value : VoteValue)
| OpUpdatePost (postId title content : string)
| OpDeletePost (postId : string)
| OpCreateComment (postId uid author content : string)
| OpUpdateComment (commentId content : string)
| OpDeleteComment (commentId : string)
| OpCreateNotification (type : NotificationType) (to from postId : string).

Definition run_op (op : ForumOp) : Action unit :=
  match op with
  | OpVote postId uid value => lift (vote postId uid value)
  | OpUpdatePost postId title content => lift (updatePost postId title content)
  | OpDeletePost postId => deletePost postId
  | OpCreateComment postId uid author content => createComment postId uid author content
  | OpUpdateComment commentId content => updateComment commentId content
  | OpDeleteComment commentId => deleteComment commentId
  | OpCreateNotification type to from postId => lift (createNotification type to from postId)
  end.

(** Calls made one after the other, whatever each one comes to. *)
Fixpoint run_ops (ops : list ForumOp) (s : Forum) : Forum :=
  match ops with
  | [] => s
  | op :: rest => run_ops rest (act_exec (run_op op) s)
  end.

End Service.

(** A forum of one post with three comments, two of them on the post. *)
Definition f_comments (fs : list bool) : Forum :=
  {| world := world_of {["p" := a_post 0 0]}
                {[("p", "alice") := {| vd_value := Some Up |}]} fs;
     comments :=
       {["c1" := {| cd_postId := "p"; cd_uid := "alice"; cd_author := "Alice";
                    cd_content := "Nice"; cd_createdAt := 7 |};
         "c2" := {| cd_postId := "q"; cd_uid := "bob"; cd_author := "Bob";
                    cd_content := "Elsewhere"; cd_createdAt := 8 |};
         "c3" := {| cd_postId := "p"; cd_uid := "bob"; cd_author := "Bob";
                    cd_content := "How much?"; cd_createdAt := 3 |}]} |}.

(** A [trim] to run the service with: leading and trailing spaces. *)
Fixpoint drop_spaces (s : string) : string :=
  match s with
  | String c rest => if Ascii.eqb c (Ascii.ascii_of_nat 32) then drop_spaces rest else s
  | EmptyString => s
  end.

Definition trim_spaces (s : string) : string :=
  String.rev (drop_spaces (String.rev (drop_spaces s))).

(** An observation of the whole store that an action leaves as it found
    it. *)
Definition act_preserves {A X} (obs : Forum → X) (m : Action A) : Prop :=
  ∀ s, obs (act_exec m s) = obs s.

(** The comments left when the documents [ids] are deleted one call after
    the other and [fs] tells which of the calls the store rejects. *)
Fixpoint delete_served (fs : list bool) (ids : list string)
    (m : gmap string CommentData) : gmap string CommentData :=
  match ids with
  | [] => m
  | k :: rest =>
      delete_served (tail fs) rest
        (match head fs with Some true => m | _ => delete k m end)
  end.

(** A forum whose ledger and counters agree: alice's up-vote is counted. *)
Definition f_voted : Forum :=
  {| world := w_voted; comments := comments (f_comments []) |}.

(** * [firebase.ts]: the layouts of a user *)

Module FirestoreService.

(** The layout a user saves from a blueprint or draws. *)
Inductive LayoutSource := blueprint | custom.
Inductive LayoutType := household | industrial.

Record LayoutSection := { sec_name : string; sec_count : Z }.

(** Numbers are stored and returned, never computed with. *)
Record LayoutData := {
  source : LayoutSource;
  blueprintId : option string;
  sections : list LayoutSection;
  type : LayoutType;
  name : string;
  area : Z;
}.

(** A document of [user_layouts]: [{ userId, ...layoutData, createdAt,
    updatedAt }]. *)
Record UserLayout := {
  userId : string;
  layoutData : LayoutData;
  createdAt : Z;
  updatedAt : Z;
}.

(** [Partial<{ sections, name, area }>] *)
Record LayoutUpdates := {
  up_sections : option (list LayoutSection);
  up_name : option string;
  up_area : option Z;
}.

Record Usage := { start : string; end_ : string; totalHours : Z }.

Record Device := {
  deviceId : string;
  deviceName : string;
  wattage : Z;
  usage : list Usage;
  totalPowerUsed : option Z;
}.

Record Room := { roomId : string; roomName : string; devices : list Device }.

Record EnhancedData := {
  layoutName : string;
  e_area : Z;
  rooms : list Room;
}.

(** A document of [layouts], kept under the uid of its user. *)
Record EnhancedLayout := {
  e_userId : string;
  e_data : EnhancedData;
  e_createdAt : Z;
  e_updatedAt : Z;
}.

(** [Partial<{ layoutName, area, rooms }>] *)
Record EnhancedUpdates := {
  up_layoutName : option string;
  up_e_area : option Z;
  up_rooms : option (list Room);
}.

Record Db := {
  user_layouts : gmap string UserLayout;
  layouts : gmap string EnhancedLayout;
  (** [auth.currentUser?.uid] *)
  currentUser : option string;
  (** for each coming store call, whether the store rejects it *)
  rejections : list bool;
  (** how many times the clock has been read *)
  dates_read : nat;
}.

Inductive Thrown :=
| MustBeAuthenticated   (* [new Error('User must be authenticated ...')] *)
| StoreRejected         (* the store rejected the call *)
| NoDocument.           (* [updateDoc] on a document that does not exist *)

Inductive Result (A : Type) :=
| Returned (a : A)
| Threw (e : Thrown).
Arguments Returned {A} a.
Arguments Threw {A} e.

Definition Call (A : Type) : Type := Db → Result A * Db.

Definition ret {A} (a : A) : Call A := λ db, (Returned a, db).
Definition throw {A} (e : Thrown) : Call A := λ db, (Threw e, db).
Definition reads {A} (f : Db → A) : Call A := λ db, (Returned (f db), db).
Definition writes (f : Db → Db) : Call unit := λ db, (Returned tt, f db).

Definition bind {A B} (m : Call A) (k : A → Call B) : Call B :=
  λ db, match m db with
        | (Returned a, db') => k a db'
        | (Threw e, db') => (Threw e, db')
        end.

(** [try { body } catch (error) { handler }] *)
Definition catch {A} (body : Call A) (handler : Thrown → Call A) : Call A :=
  λ db, match body db with
        | (Returned a, db') => (Returned a, db')
        | (Threw e, db') => handler e db'
        end.

(** [try { body } catch (error) { throw error; }], with or without a
    [console.error] before the [throw] *)
Definition rethrowing {A} (body : Call A) : Call A := catch body throw.

Global Instance Call_ret : MRet Call := @ret.
Global Instance Call_bind : MBind Call := λ A B k m, bind m k.

Definition result {A} (m : Call A) (db : Db) : Result A := (m db).1.
Definition after {A} (m : Call A) (db : Db) : Db := (m db).2.

Definition set_user_layouts (f : gmap string UserLayout → gmap string UserLayout)
    (db : Db) : Db :=
  {| user_layouts := f (user_layouts db); layouts := layouts db;
     currentUser := currentUser db; rejections := rejections db;
     dates_read := dates_read db |}.

Definition set_layouts (f : gmap string EnhancedLayout → gmap string EnhancedLayout)
    (db : Db) : Db :=
  {| user_layouts := user_layouts db; layouts := f (layouts db);
     currentUser := currentUser db; rejections := rejections db;
     dates_read := dates_read db |}.

(** The store decides whether it serves a call. *)
Definition store_call : Call unit :=
  λ db, let served fs :=
          {| user_layouts := user_layouts db; layouts := layouts db;
             currentUser := currentUser db; rejections := fs;
             dates_read := dates_read db |} in
        match rejections db with
        | true :: fs => (Threw StoreRejected, served fs)
        | false :: fs => (Returned tt, served fs)
        | [] => (Returned tt, db)
        end.

Definition apply_updates (u : LayoutUpdates) (t : Z) (d : UserLayout) : UserLayout :=
  {| userId := userId d;
     layoutData :=
       {| source := source (layoutData d); blueprintId := blueprintId (layoutData d);
          sections := default (sections (layoutData d)) (up_sections u);
          type := type (layoutData d);
          name := default (name (layoutData d)) (up_name u);
          area := default (area (layoutData d)) (up_area u) |};
     createdAt := createdAt d; updatedAt := t |}.

Definition apply_enhanced_updates (u : EnhancedUpdates) (t : Z) (d : EnhancedLayout)
    : EnhancedLayout :=
  {| e_userId := e_userId d;
     e_data :=
       {| layoutName := default (layoutName (e_data d)) (up_layoutName u);
          e_area := default (e_area (e_data d)) (up_e_area u);
          rooms := default (rooms (e_data d)) (up_rooms u) |};
     e_createdAt := e_createdAt d; e_updatedAt := t |}.

Section Service.

(** The clock of the device: what the [n]-th [new Date()] gives. *)
Context (dateAt : nat → Z).

Definition new_Date : Call Z :=
  λ db, (Returned (dateAt (dates_read db)),
         {| user_layouts := user_layouts db; layouts := layouts db;
            currentUser := currentUser db; rejections := rejections db;
            dates_read := S (dates_read db) |}).

Definition testConnection : Call bool :=
  catch
    ((* Test 2: Try to read *)
     catch store_call (λ readError, mret tt) ;;
     mret true)
    (λ error, mret false).

(** [addDocument], on the collection [user_layouts] that the service
    calls it with. *)
Definition addDocument (data : UserLayout) : Call string :=
  rethrowing
    (user ← reads currentUser;
     match user with
     | None => throw MustBeAuthenticated
     | Some _ =>
         store_call ;;
         id ← reads (λ db, fresh (dom (user_layouts db)));
         writes (set_user_layouts (insert id data)) ;;
         mret id
     end).

(** [getDocumentsByField], on the collection [user_layouts] and the field
    [userId] that the service calls it with. *)
Definition getDocumentsByField (value : string) : Call (list (string * UserLayout)) :=
  rethrowing
    (store_call ;;
     reads (λ db, filter (λ kv, userId kv.2 = value) (docs_by_id (user_layouts db)))).

Definition saveUserLayout (data : LayoutData) : Call string :=
  rethrowing
    (user ← reads currentUser;
     match user with
     | None => throw MustBeAuthenticated
     | Some uid =>
         created ← new_Date;
         updated ← new_Date;
         addDocument {| userId := uid; layoutData := data;
                        createdAt := created; updatedAt := updated |}
     end).

Definition getUserLayout (uid : string) : Call (option (string * UserLayout)) :=
  rethrowing
    (found ← getDocumentsByField uid;
     mret (head found)).

Definition updateUserLayout (layoutId : string) (updates : LayoutUpdates) : Call unit :=
  rethrowing
    (updated ← new_Date;
     store_call ;;
     snap ← reads (λ db, user_layouts db !! layoutId);
     match snap with
     | Some d => writes (set_user_layouts (insert layoutId (apply_updates updates updated d)))
     | None => throw NoDocument
     end).

(** Enhanced layout methods for room and device management *)

Definition saveEnhancedUserLayout (data : EnhancedData) : Call unit :=
  rethrowing
    (user ← reads currentUser;
     match user with
     | None => throw MustBeAuthenticated
     | Some uid =>
         created ← new_Date;
         updated ← new_Date;
         store_call ;;
         writes (set_layouts (insert uid {| e_userId := uid; e_data := data;
                                            e_createdAt := created;
                                            e_updatedAt := updated |}))
     end).

Definition getEnhancedUserLayout (uid : string)
    : Call (option (string * EnhancedLayout)) :=
  rethrowing
    (store_call ;;
     snap ← reads (λ db, layouts db !! uid);
     mret ((λ d, (uid, d)) <$> snap)).

Definition updateEnhancedUserLayout (uid : string) (updates : EnhancedUpdates)
    : Call unit :=
  rethrowing
    (updated ← new_Date;
     store_call ;;
     snap ← reads (λ db, layouts db !! uid);
     match snap with
     | Some d =>
         writes (set_layouts (insert uid (apply_enhanced_updates updates updated d)))
     | None => throw NoDocument
     end).

End Service.

(** A store to run the service on. *)
Definition a_layout (n : string) : LayoutData :=
  {| source := custom; blueprintId := None;
     sections := [{| sec_name := "Kitchen"; sec_count := 1 |}];
     type := household; name := n; area := 80 |}.

Definition a_home (n : string) : EnhancedData :=
  {| layoutName := n; e_area := 80;
     rooms := [{| roomId := "r1"; roomName := "Kitchen";
                  devices := [{| deviceId := "d1"; deviceName := "Kettle";
                                 wattage := 2000;
                                 usage := [{| start := "07:00"; end_ := "07:10";
                                              totalHours := 0 |}];
                                 totalPowerUsed := None |}] |}] |}.

Definition db_of (user : option string) (fs : list bool) : Db :=
  {| user_layouts := ∅; layouts := ∅; currentUser := user; rejections := fs;
     dates_read := 0 |}.

Definition clock_of_day : nat → Z := λ n, 1000 + Z.of_nat n.

End FirestoreService.

(** * Properties *)

(** ** One call, with the store available *)

Ltac run_vote :=
  unfold vote, getDoc_vote, deleteDoc_vote, setDoc_vote_merge, updateDoc_post,
    exec, outcome, mbind, Promise_bind, await, gets, modify, reject, request;
  cbn.

(** Case analysis on what one call can find: the voter's record (absent,
    without a value, up or down), the requested value, and the subject
    (present or not). *)
Ltac vote_cases w postId uid value :=
  let ps := fresh "ps" in
  let vs := fresh "vs" in
  let fs := fresh "fs" in
  let Hv := fresh "Hv" in
  let Hp := fresh "Hp" in
  destruct w as [ps vs ? ? ? ? fs ? ?]; cbn in *; subst fs;
  unfold calls_of, counters, previous_vote, classify; run_vote;
  destruct (vs !! (postId, uid)) as [[[[]|]]|] eqn:Hv; destruct value; cbn;
  repeat (case_decide; try congruence); cbn;
  destruct (ps !! postId) as [?post|] eqn:Hp; cbn;
  rewrite ?Hp, ?Hv, ?lookup_insert_eq, ?lookup_delete_eq; cbn.

Ltac by_delta :=
  unfold add_delta; cbn; repeat f_equal; lia.

Lemma vote_faults w postId uid value :
  faults w = [] → faults (exec (vote postId uid value) w) = [].
Proof. intros H. vote_cases w postId uid value; reflexivity. Qed.

Lemma vote_counters w postId uid value :
  faults w = [] →
  counters postId (exec (vote postId uid value) w)
  = add_delta (delta_table (classify (previous_vote w postId uid) value))
      <$> counters postId w.
Proof. intros H. vote_cases w postId uid value; try reflexivity; by_delta. Qed.

Lemma vote_votes w postId uid value :
  faults w = [] →
  votes (exec (vote postId uid value) w)
  = if decide (previous_vote w postId uid = Some value) then delete (postId, uid) (votes w)
    else match posts w !! postId with
         | Some _ => <[(postId, uid) := {| vd_value := Some value |}]> (votes w)
         | None => votes w
         end.
Proof. intros H. vote_cases w postId uid value; reflexivity. Qed.

Lemma bump_eq p q :
  uid p = uid q → author p = author q → title p = title q → content p = content q →
  createdAt p = createdAt q → likesCount p = likesCount q → upVotes p = upVotes q →
  downVotes p = downVotes q → mediaUrl p = mediaUrl q → p = q.
Proof. destruct p, q; cbn; intros; congruence. Qed.

Lemma vote_posts w postId uid value :
  faults w = [] →
  posts (exec (vote postId uid value) w)
  = match posts w !! postId with
    | Some p =>
        <[postId := bump (delta_table (classify (previous_vote w postId uid) value)) p]>
          (posts w)
    | None => posts w
    end.
Proof.
  intros H. vote_cases w postId uid value; try reflexivity;
    f_equal; apply bump_eq; cbn; first [reflexivity | lia].
Qed.

Lemma add_delta_assoc a b c :
  add_delta a (add_delta b c) = add_delta (add_delta b a) c.
Proof. destruct a, b, c. unfold add_delta; cbn. f_equal; lia. Qed.

Lemma run_votes_faults postId uid values w :
  faults w = [] → faults (run_votes postId uid values w) = [].
Proof.
  revert w. induction values as [|v vs IH]; intros w H; cbn; [done|].
  apply IH. by apply vote_faults.
Qed.

Lemma run_votes_counters postId uid values w :
  faults w = [] →
  counters postId (run_votes postId uid values w)
  = add_delta (sum_deltas (classified postId uid values w)) <$> counters postId w.
Proof.
  revert w. induction values as [|v vs IH]; intros w H; cbn.
  - destruct (counters postId w) as [[a b]|]; cbn; [|done].
    unfold add_delta; cbn. do 2 f_equal; lia.
  - rewrite IH by (by apply vote_faults). rewrite vote_counters by done.
    destruct (counters postId w) as [c|]; cbn; [|done].
    by rewrite add_delta_assoc.
Qed.

(** ** C1: the counters follow the delta table *)

(** C1, counterexample.  The store serves the read of alice's record and
    rejects the counter update of her first up-vote: the transition is a
    Cast of +1, whose table entry is (+1, 0), and the counters stay at
    (0, 0).  When it rejects the counter update of an Unvote instead, the
    record is already deleted and the counters stay at (1, 0). *)
Lemma rejected_counter_write_applies_no_delta :
  (let w := world_of {["p" := a_post 0 0]} ∅ [false; true] in
   classify (previous_vote w "p" "alice") Up = Cast Up
   ∧ outcome (vote "p" "alice" Up) w = Rejected Unavailable
   ∧ counters "p" w = Some (0, 0)
   ∧ add_delta (delta_table (Cast Up)) <$> counters "p" w = Some (1, 0)
   ∧ counters "p" (exec (vote "p" "alice" Up) w) = Some (0, 0))
  ∧ (let w := world_of {["p" := a_post 1 0]}
                {[("p", "alice") := {| vd_value := Some Up |}]} [false; false; true] in
     classify (previous_vote w "p" "alice") Up = Unvote Up
     ∧ votes (exec (vote "p" "alice" Up) w) !! ("p", "alice") = None
     ∧ add_delta (delta_table (Unvote Up)) <$> counters "p" w = Some (0, 0)
     ∧ counters "p" (exec (vote "p" "alice" Up) w) = Some (1, 0)).
Proof. vm_compute. done. Qed.

(** C1, amended.  With the store available, a call [vote postId uid value] that
    finds the voter's previous vote [prev] changes the subject's
    [(upVotes, downVotes)] by exactly the delta-table entry of the
    transition classified from [(prev, value)]; after any sequence of
    submissions by one voter on one subject the counters are the initial
    ones plus the sum of the deltas of the transitions classified along
    the way, which on a subject that starts at (0, 0) is that sum. *)
Theorem vote_counters_follow_delta_table (w : World) (postId uid : string)
    (Havailable : faults w = []) :
  (∀ value,
     counters postId (exec (vote postId uid value) w)
     = add_delta (delta_table (classify (previous_vote w postId uid) value))
         <$> counters postId w)
  ∧ (∀ values,
       counters postId (run_votes postId uid values w)
       = add_delta (sum_deltas (classified postId uid values w)) <$> counters postId w)
  ∧ (∀ values,
       counters postId w = Some (0, 0) →
       counters postId (run_votes postId uid values w)
       = Some (sum_deltas (classified postId uid values w))).
Proof.
  split; [|split].
  - intros value. by apply vote_counters.
  - intros values. by apply run_votes_counters.
  - intros values Hzero. rewrite run_votes_counters, Hzero by done. cbn.
    destruct (sum_deltas _) as [a b]. unfold add_delta. cbn. do 2 f_equal; lia.
Qed.

Lemma vote_counters_follow_delta_table_witness :
  faults w_new = []
  ∧ (∀ value,
       counters "p" (exec (vote "p" "alice" value) w_new)
       = add_delta (delta_table (classify (previous_vote w_new "p" "alice") value))
           <$> counters "p" w_new)
  ∧ (∀ values,
       counters "p" (run_votes "p" "alice" values w_new)
       = add_delta (sum_deltas (classified "p" "alice" values w_new))
           <$> counters "p" w_new)
  ∧ (∀ values,
       counters "p" w_new = Some (0, 0) →
       counters "p" (run_votes "p" "alice" values w_new)
       = Some (sum_deltas (classified "p" "alice" values w_new))).
Proof.
  split; [reflexivity|].
  exact (vote_counters_follow_delta_table w_new "p" "alice" eq_refl).
Defined.

Example cast_switch_unvote :
  classified "p" "alice" [Up; Down; Down] w_new = [Cast Up; Switch Down; Unvote Down]
  ∧ counters "p" (run_votes "p" "alice" [Up; Down] w_new) = Some (0, 1)
  ∧ counters "p" (run_votes "p" "alice" [Up; Down; Down] w_new) = Some (0, 0).
Proof. vm_compute. done. Qed.

(** ** C3: the order of the two writes *)

Lemma vote_calls_unvote w postId uid value :
  faults w = [] → previous_vote w postId uid = Some value →
  ∃ fields,
    calls_of (vote postId uid value) w
    = [GetDoc (VoteRef postId uid); DeleteDoc (VoteRef postId uid);
       UpdateDoc (PostRef postId) fields].
Proof.
  intros H. vote_cases w postId uid value; intros Hprev; try congruence;
    rewrite <- !app_assoc, drop_app_length; by eexists.
Qed.

Lemma vote_calls_set w postId uid value :
  faults w = [] → is_Some (posts w !! postId) →
  previous_vote w postId uid ≠ Some value →
  ∃ fields,
    calls_of (vote postId uid value) w
    = [GetDoc (VoteRef postId uid); UpdateDoc (PostRef postId) fields;
       SetDoc (VoteRef postId uid)].
Proof.
  intros H. vote_cases w postId uid value; intros [? Hpost] Hprev;
    try congruence; rewrite <- !app_assoc, drop_app_length; by eexists.
Qed.

(** C3, counterexample.  On a new post a first up-vote is a Cast; the call
    updates the counters of the subject and only then writes the vote
    record, so no write to the ledger precedes the counter write. *)
Lemma cast_updates_counters_first :
  classify (previous_vote w_new "p" "alice") Up = Cast Up
  ∧ calls_of (vote "p" "alice" Up) w_new
    = [GetDoc (VoteRef "p" "alice");
       UpdateDoc (PostRef "p") [(F_upVotes, increment 1)];
       SetDoc (VoteRef "p" "alice")]
  ∧ occurs_before is_ledger_write is_counter_write
      (calls_of (vote "p" "alice" Up) w_new) = false.
Proof. vm_compute. done. Qed.

Ltac vote_cases_any w postId uid value :=
  let ps := fresh "ps" in
  let vs := fresh "vs" in
  let fs := fresh "fs" in
  let Hv := fresh "Hv" in
  let Hp := fresh "Hp" in
  destruct w as [ps vs ? ? ? ? fs ? ?];
  destruct fs as [|[] [|[] [|[] fs]]];
  unfold calls_of, counters, previous_vote, classify; run_vote;
  destruct (vs !! (postId, uid)) as [[[[]|]]|] eqn:Hv; destruct value; cbn;
  repeat (case_decide; try congruence); cbn;
  destruct (ps !! postId) as [?post|] eqn:Hp; cbn;
  rewrite <- ?app_assoc, ?drop_app_length; cbn.

Lemma vote_calls_in_order w postId uid value :
  let calls := calls_of (vote postId uid value) w in
  match classify (previous_vote w postId uid) value with
  | Unvote _ =>
      (∃ fields, calls `prefix_of` [GetDoc (VoteRef postId uid);
                                    DeleteDoc (VoteRef postId uid);
                                    UpdateDoc (PostRef postId) fields])
      ∧ occurs_before is_counter_write is_ledger_write calls = false
  | _ =>
      (∃ fields, calls `prefix_of` [GetDoc (VoteRef postId uid);
                                    UpdateDoc (PostRef postId) fields;
                                    SetDoc (VoteRef postId uid)])
      ∧ occurs_before is_ledger_write is_counter_write calls = false
  end.
Proof.
  intros calls. subst calls.
  vote_cases_any w postId uid value;
    (split; [|reflexivity]);
    first [ exists []; eexists; reflexivity | eexists; eexists; reflexivity ].
Qed.

(** C3, amended.  In every execution of [vote], whatever the store does
    and whether or not the subject exists, the calls made are an initial
    part of: read the vote record, delete it, update the counters, for
    an Unvote; and of: read the vote record, update the counters, write
    the vote record, for a Cast or a Switch.  So an Unvote never updates
    the counters before it deletes the record, and a Cast or a Switch
    never writes the record before it updates the counters.  With the
    store available an Unvote makes all three of its calls, and so does a
    Cast or a Switch on a subject that exists. *)
Theorem vote_write_order (w : World) (postId uid : string) (value : VoteValue) :
  let calls := calls_of (vote postId uid value) w in
  match classify (previous_vote w postId uid) value with
  | Unvote _ =>
      (∃ fields, calls `prefix_of` [GetDoc (VoteRef postId uid);
                                    DeleteDoc (VoteRef postId uid);
                                    UpdateDoc (PostRef postId) fields])
      ∧ occurs_before is_counter_write is_ledger_write calls = false
      ∧ (faults w = [] →
         (∃ fields, calls = [GetDoc (VoteRef postId uid); DeleteDoc (VoteRef postId uid);
                             UpdateDoc (PostRef postId) fields])
         ∧ occurs_before is_ledger_write is_counter_write calls = true)
  | _ =>
      (∃ fields, calls `prefix_of` [GetDoc (VoteRef postId uid);
                                    UpdateDoc (PostRef postId) fields;
                                    SetDoc (VoteRef postId uid)])
      ∧ occurs_before is_ledger_write is_counter_write calls = false
      ∧ (faults w = [] → is_Some (posts w !! postId) →
         (∃ fields, calls = [GetDoc (VoteRef postId uid);
                             UpdateDoc (PostRef postId) fields;
                             SetDoc (VoteRef postId uid)])
         ∧ occurs_before is_counter_write is_ledger_write calls = true)
  end.
Proof.
  intros calls. pose proof (vote_calls_in_order w postId uid value) as Horder.
  cbn zeta in Horder. fold calls in Horder.
  destruct (decide (previous_vote w postId uid = Some value)) as [Hprev|Hprev].
  - assert (classify (previous_vote w postId uid) value = Unvote value) as Hclass.
    { rewrite Hprev. cbn. by rewrite decide_True. }
    rewrite Hclass in *. destruct Horder as [Hprefix Hnever].
    split; [done|]. split; [done|]. intros Havailable.
    destruct (vote_calls_unvote w postId uid value Havailable Hprev) as [fields Hcalls].
    fold calls in Hcalls. rewrite Hcalls. eauto.
  - assert (∀ v, classify (previous_vote w postId uid) value ≠ Unvote v) as Hclass.
    { intros v. unfold classify. destruct (previous_vote w postId uid) as [p|]; [|done].
      by rewrite decide_False by congruence. }
    assert (∀ fields,
              calls = [GetDoc (VoteRef postId uid); UpdateDoc (PostRef postId) fields;
                       SetDoc (VoteRef postId uid)] →
              occurs_before is_counter_write is_ledger_write calls = true) as Hfull
      by (by intros fields ->).
    destruct (classify (previous_vote w postId uid) value) as [v|v|v] eqn:Hc;
      [|by destruct (Hclass v)|];
      destruct Horder as [Hprefix Hnever];
      (split; [done|]); (split; [done|]); intros Havailable Hpost;
      destruct (vote_calls_set w postId uid value Havailable Hpost Hprev)
        as [fields Hcalls]; fold calls in Hcalls; eauto.
Qed.

Lemma vote_write_order_witness :
  faults w_voted = []
  ∧ ((∃ fields,
        calls_of (vote "p" "alice" Up) w_voted
        = [GetDoc (VoteRef "p" "alice"); DeleteDoc (VoteRef "p" "alice");
           UpdateDoc (PostRef "p") fields])
     ∧ occurs_before is_ledger_write is_counter_write
         (calls_of (vote "p" "alice" Up) w_voted) = true)
  ∧ faults w_new = [] ∧ is_Some (posts w_new !! "p")
  ∧ ((∃ fields,
        calls_of (vote "p" "alice" Down) w_new
        = [GetDoc (VoteRef "p" "alice"); UpdateDoc (PostRef "p") fields;
           SetDoc (VoteRef "p" "alice")])
     ∧ occurs_before is_counter_write is_ledger_write
         (calls_of (vote "p" "alice" Down) w_new) = true).
Proof.
  split; [reflexivity|]. split.
  { destruct (vote_write_order w_voted "p" "alice" Up) as (_ & _ & Hfull).
    exact (Hfull eq_refl). }
  split; [reflexivity|]. split; [by eexists|].
  destruct (vote_write_order w_new "p" "alice" Down) as (_ & _ & Hfull).
  exact (Hfull eq_refl (ex_intro _ _ eq_refl)).
Defined.

Example cast_on_a_missing_subject_writes_no_record :
  calls_of (vote "gone" "alice" Up) w_new
  = [GetDoc (VoteRef "gone" "alice"); UpdateDoc (PostRef "gone") [(F_upVotes, increment 1)]]
  ∧ outcome (vote "gone" "alice" Up) w_new = Rejected NotFound.
Proof. vm_compute. done. Qed.

(** ** C4 and C5: toggling and switching back *)

Lemma previous_vote_after w postId uid value :
  faults w = [] → is_Some (posts w !! postId) →
  previous_vote (exec (vote postId uid value) w) postId uid
  = if decide (previous_vote w postId uid = Some value) then None else Some value.
Proof.
  intros H [post Hpost]. unfold previous_vote at 1.
  rewrite vote_votes, Hpost by done.
  case_decide; by rewrite ?lookup_delete_eq, ?lookup_insert_eq.
Qed.

Lemma vote_keeps_subject w postId uid value :
  faults w = [] → is_Some (posts w !! postId) →
  is_Some (posts (exec (vote postId uid value) w) !! postId).
Proof.
  intros H [post Hpost]. rewrite vote_posts, Hpost by done.
  rewrite lookup_insert_eq. by eexists.
Qed.

Lemma vote_rejected_without_subject w postId uid value :
  faults w = [] → posts w !! postId = None →
  previous_vote w postId uid ≠ Some value →
  posts (exec (vote postId uid value) w) = posts w
  ∧ votes (exec (vote postId uid value) w) = votes w.
Proof.
  intros H Hpost Hprev. rewrite vote_posts, vote_votes, Hpost by done.
  by rewrite decide_False.
Qed.

(** C4, counterexample.  When alice already has an up-vote, two more
    up-votes are an Unvote and then a Cast: the second call is not an
    Unvote and the record is back.  When she has a down-vote, two up-votes
    are a Switch and an Unvote, and the down counter ends one lower than
    it started. *)
Lemma same_vote_twice_not_always_unvote :
  (classified "p" "alice" [Up; Up] w_voted = [Unvote Up; Cast Up]
   ∧ votes (run_votes "p" "alice" [Up; Up] w_voted) !! ("p", "alice")
     = Some {| vd_value := Some Up |})
  ∧ (let w := world_of {["p" := a_post 0 1]}
                {[("p", "alice") := {| vd_value := Some Down |}]} [] in
     classified "p" "alice" [Up; Up] w = [Switch Up; Unvote Up]
     ∧ counters "p" w = Some (0, 1)
     ∧ counters "p" (run_votes "p" "alice" [Up; Up] w) = Some (0, 0)).
Proof. vm_compute. done. Qed.

(** C4, amended.  With the store available, the subject present and no
    vote of the voter on it, submitting the same value twice in a row is a
    Cast and then an Unvote: the vote record is gone again and the
    subject's counters are what they were before the first submission. *)
Theorem same_vote_twice (w : World) (postId uid : string) (value : VoteValue)
    (Havailable : faults w = []) (Hpost : is_Some (posts w !! postId))
    (Hnovote : previous_vote w postId uid = None) :
  classified postId uid [value; value] w = [Cast value; Unvote value]
  ∧ votes (run_votes postId uid [value; value] w) !! (postId, uid) = None
  ∧ counters postId (run_votes postId uid [value; value] w) = counters postId w.
Proof.
  pose proof (vote_faults w postId uid value Havailable) as Hav1.
  pose proof (vote_keeps_subject w postId uid value Havailable Hpost) as Hpost1.
  pose proof (previous_vote_after w postId uid value Havailable Hpost) as Hprev1.
  rewrite Hnovote, decide_False in Hprev1 by done.
  cbn [classified run_votes]. split; [|split].
  - rewrite Hnovote, Hprev1. cbn. by rewrite decide_True.
  - rewrite vote_votes, Hprev1, decide_True by done. apply lookup_delete_eq.
  - rewrite !vote_counters, Hprev1, Hnovote by done. cbn. rewrite decide_True by done.
    destruct (counters postId w) as [[a b]|]; cbn; [|done].
    destruct value; unfold add_delta; cbn; do 2 f_equal; lia.
Qed.

Lemma same_vote_twice_witness :
  faults w_new = [] ∧ is_Some (posts w_new !! "p")
  ∧ previous_vote w_new "p" "alice" = None
  ∧ classified "p" "alice" [Down; Down] w_new = [Cast Down; Unvote Down]
  ∧ votes (run_votes "p" "alice" [Down; Down] w_new) !! ("p", "alice") = None
  ∧ counters "p" (run_votes "p" "alice" [Down; Down] w_new) = counters "p" w_new.
Proof.
  split; [reflexivity|]. split; [by eexists|]. split; [reflexivity|].
  exact (same_vote_twice w_new "p" "alice" Down eq_refl (ex_intro _ _ eq_refl) eq_refl).
Defined.

(** C5, counterexample.  alice has no vote.  Her three calls are a Cast,
    a Switch and a Switch back, and the store rejects the last call of
    the third, the write of the vote record: the counters are back at
    (1, 0) but the record still says -1, where it said +1 after the
    Cast.  When the store rejects the record write of the second call
    instead, the third call finds +1 and is an Unvote, and the counters
    end at (-1, 1). *)
Lemma switch_back_with_a_rejected_record_write :
  (let w := world_of {["p" := a_post 0 0]} ∅
              [false; false; false; false; false; false; false; false; true] in
   let w1 := exec (vote "p" "alice" Up) w in
   let w3 := run_votes "p" "alice" [Down; Up] w1 in
   previous_vote w "p" "alice" = None
   ∧ classified "p" "alice" [Up; Down; Up] w = [Cast Up; Switch Down; Switch Up]
   ∧ (counters "p" w1, previous_vote w1 "p" "alice") = (Some (1, 0), Some Up)
   ∧ (counters "p" w3, previous_vote w3 "p" "alice") = (Some (1, 0), Some Down))
  ∧ (let w := world_of {["p" := a_post 0 0]} ∅
                [false; false; false; false; false; true] in
     let w1 := exec (vote "p" "alice" Up) w in
     let w3 := run_votes "p" "alice" [Down; Up] w1 in
     previous_vote w "p" "alice" = None
     ∧ classified "p" "alice" [Up; Down; Up] w = [Cast Up; Switch Down; Unvote Up]
     ∧ counters "p" w1 = Some (1, 0)
     ∧ counters "p" w3 = Some (-1, 1)).
Proof. vm_compute. done. Qed.

(** C5, amended.  With the store available and no vote of the voter on the
    subject, the calls [vote(+1)], [vote(-1)], [vote(+1)] leave the posts
    (so the subject's counters) and the ledger (so the voter's record) as
    they were right after the first call; when the subject exists the
    three calls are a Cast, a Switch and a Switch back. *)
Theorem cast_switch_switch_back (w : World) (postId uid : string)
    (Havailable : faults w = []) (Hnovote : previous_vote w postId uid = None) :
  let w1 := exec (vote postId uid Up) w in
  let w3 := run_votes postId uid [Down; Up] w1 in
  counters postId w3 = counters postId w1
  ∧ votes w3 !! (postId, uid) = votes w1 !! (postId, uid)
  ∧ posts w3 = posts w1
  ∧ votes w3 = votes w1
  ∧ (is_Some (posts w !! postId) →
     classified postId uid [Up; Down; Up] w = [Cast Up; Switch Down; Switch Up]).
Proof.
  intros w1 w3.
  assert (posts w3 = posts w1 ∧ votes w3 = votes w1
          ∧ (is_Some (posts w !! postId) →
             classified postId uid [Up; Down; Up] w = [Cast Up; Switch Down; Switch Up]))
    as (Hposts & Hvotes & Hclass); [|by unfold counters; rewrite Hposts, Hvotes].
  subst w1 w3. cbn [run_votes classified].
  set (w1 := exec (vote postId uid Up) w).
  set (w2 := exec (vote postId uid Down) w1).
  assert (faults w1 = []) as Hav1 by by apply vote_faults.
  assert (faults w2 = []) as Hav2 by by apply vote_faults.
  destruct (posts w !! postId) as [post|] eqn:Hpost.
  - assert (is_Some (posts w !! postId)) as Hp0 by by rewrite Hpost.
    assert (is_Some (posts w1 !! postId)) as Hp1 by by apply vote_keeps_subject.
    assert (previous_vote w1 postId uid = Some Up) as Hprev1.
    { subst w1. rewrite previous_vote_after, Hnovote by done. by rewrite decide_False. }
    assert (previous_vote w2 postId uid = Some Down) as Hprev2.
    { subst w2. rewrite previous_vote_after, Hprev1 by done. by rewrite decide_False. }
    assert (posts w1 = <[postId := bump (1, 0) post]> (posts w)) as Hposts1.
    { subst w1. by rewrite vote_posts, Hpost, Hnovote. }
    assert (posts w2 = <[postId := bump (-1, 1) (bump (1, 0) post)]> (posts w)) as Hposts2.
    { subst w2. rewrite vote_posts, Hprev1, Hposts1, lookup_insert_eq by done.
      cbn. by rewrite insert_insert_eq. }
    assert (votes w1 = <[(postId, uid) := {| vd_value := Some Up |}]> (votes w)) as Hvotes1.
    { subst w1. by rewrite vote_votes, Hpost, Hnovote, decide_False. }
    assert (votes w2 = <[(postId, uid) := {| vd_value := Some Down |}]> (votes w)) as Hvotes2.
    { subst w2. destruct Hp1 as [post1 Hp1].
      rewrite vote_votes, Hp1, Hprev1, decide_False, Hvotes1 by done.
      by rewrite insert_insert_eq. }
    split; [|split].
    + rewrite vote_posts, Hprev2, Hposts2, lookup_insert_eq, Hposts1 by done.
      cbn. rewrite decide_False, insert_insert_eq by done. f_equal.
      apply bump_eq; cbn; first [reflexivity | lia].
    + destruct (vote_keeps_subject w1 postId uid Down Hav1 Hp1) as [post2 Hp2].
      fold w2 in Hp2.
      rewrite vote_votes, Hp2, Hprev2, decide_False, Hvotes2, Hvotes1 by done.
      by rewrite insert_insert_eq.
    + intros _. by rewrite Hnovote, Hprev1, Hprev2.
  - destruct (vote_rejected_without_subject w postId uid Up) as [Hp1 Hv1];
      [done|done|by rewrite Hnovote|]. fold w1 in Hp1, Hv1.
    destruct (vote_rejected_without_subject w1 postId uid Down) as [Hp2 Hv2];
      [done|by rewrite Hp1|by unfold previous_vote in *; rewrite Hv1, Hnovote|].
    fold w2 in Hp2, Hv2.
    destruct (vote_rejected_without_subject w2 postId uid Up) as [Hp3 Hv3];
      [done|by rewrite Hp2, Hp1|
       by unfold previous_vote in *; rewrite Hv2, Hv1, Hnovote|].
    split; [by rewrite Hp3, Hp2|]. split; [by rewrite Hv3, Hv2|].
    intros [? ?]; congruence.
Qed.

Lemma cast_switch_switch_back_witness :
  faults w_new = [] ∧ previous_vote w_new "p" "alice" = None
  ∧ (let w1 := exec (vote "p" "alice" Up) w_new in
     let w3 := run_votes "p" "alice" [Down; Up] w1 in
     counters "p" w3 = counters "p" w1
     ∧ votes w3 !! ("p", "alice") = votes w1 !! ("p", "alice")
     ∧ posts w3 = posts w1
     ∧ votes w3 = votes w1
     ∧ (is_Some (posts w_new !! "p") →
        classified "p" "alice" [Up; Down; Up] w_new = [Cast Up; Switch Down; Switch Up])).
Proof.
  split; [reflexivity|]. split; [reflexivity|].
  exact (cast_switch_switch_back w_new "p" "alice" eq_refl eq_refl).
Defined.

(** ** C2: the counters and the ledger *)

Section Tally.

Context (v : VoteValue) (postId : string).
Implicit Types (m : gmap (string * string) VoteData) (k : string * string) (d : VoteData).

Lemma tally_insert k d m :
  tally v postId (<[k := d]> m) = (counted v postId k d + tally v postId (delete k m))%nat.
Proof.
  unfold tally, counted. rewrite map_filter_insert. cbn. case_decide.
  - rewrite <- insert_delete_eq, map_size_insert_None by apply lookup_delete_eq.
    by rewrite map_filter_delete.
  - done.
Qed.

Lemma tally_delete k m :
  tally v postId m
  = (match m !! k with Some d => counted v postId k d | None => 0 end
     + tally v postId (delete k m))%nat.
Proof.
  destruct (m !! k) as [d|] eqn:Hk.
  - rewrite <- (insert_delete_id m k d) at 1 by done.
    by rewrite tally_insert, delete_delete_eq.
  - by rewrite delete_id.
Qed.

Lemma tally_insert_other k d m :
  k.1 ≠ postId → tally v postId (<[k := d]> m) = tally v postId m.
Proof.
  intros Hne. rewrite tally_insert, (tally_delete k m). unfold counted.
  rewrite decide_False by (by intros [? _]).
  destruct (m !! k); [by rewrite decide_False by (by intros [? _])|done].
Qed.

Lemma tally_delete_other k m :
  k.1 ≠ postId → tally v postId (delete k m) = tally v postId m.
Proof.
  intros Hne. rewrite (tally_delete k m). unfold counted.
  destruct (m !! k); [by rewrite decide_False by (by intros [? _])|done].
Qed.

End Tally.

Lemma vote_in_step w postId uid value :
  faults w = [] → in_step w → in_step (exec (vote postId uid value) w).
Proof.
  intros Hav Hstep q post' Hq.
  rewrite vote_votes by done. rewrite vote_posts in Hq by done.
  destruct (posts w !! postId) as [post|] eqn:Hpost.
  - destruct (decide (q = postId)) as [->|Hne].
    + rewrite lookup_insert_eq in Hq. injection Hq as <-.
      specialize (Hstep postId post Hpost).
      rewrite (tally_delete Up postId (postId, uid)),
        (tally_delete Down postId (postId, uid)) in Hstep.
      unfold previous_vote, prev_of, classify, counted in *.
      destruct (votes w !! (postId, uid)) as [[[[]|]]|] eqn:Hv; destruct value; cbn in *;
        repeat (case_decide; try congruence; try (exfalso; intuition congruence));
        rewrite ?tally_insert, ?delete_delete_eq; unfold counted; cbn;
        repeat (case_decide; try congruence; try (exfalso; intuition congruence));
        cbn in *; lia.
    + rewrite lookup_insert_ne in Hq by done.
      specialize (Hstep q post' Hq).
      case_decide; by rewrite ?tally_delete_other, ?tally_insert_other.
  - assert (q ≠ postId) as Hne by congruence.
    specialize (Hstep q post' Hq).
    case_decide; by rewrite ?tally_delete_other.
Qed.

Lemma run_calls_faults calls w :
  faults w = [] → faults (run_calls calls w) = [].
Proof.
  revert w. induction calls as [|[[p u] v] calls IH]; intros w H; cbn; [done|].
  apply IH. by apply vote_faults.
Qed.

Lemma run_calls_in_step calls w :
  faults w = [] → in_step w → in_step (run_calls calls w).
Proof.
  revert w. induction calls as [|[[p u] v] calls IH]; intros w H Hstep; cbn; [done|].
  apply IH; [by apply vote_faults|by apply vote_in_step].
Qed.

(** C2, counterexample.  alice's up-vote is in the ledger but the counter
    stands at 0.  Her next up-vote is an Unvote: the call is fulfilled,
    the record is deleted and the decrement is applied as it is, leaving
    [upVotes] at -1. *)
Lemma unvote_drives_counter_below_zero :
  counters "p" w_desync = Some (0, 0)
  ∧ classify (previous_vote w_desync "p" "alice") Up = Unvote Up
  ∧ outcome (vote "p" "alice" Up) w_desync = Fulfilled tt
  ∧ votes (exec (vote "p" "alice" Up) w_desync) !! ("p", "alice") = None
  ∧ counters "p" (exec (vote "p" "alice" Up) w_desync) = Some (-1, 0).
Proof. vm_compute. done. Qed.

(** C2, amended.  [vote] has no underflow check: every decrement is
    applied as it is.  With the store available, if each counter of each
    subject is at least the number of vote records on that subject that
    carry its value, then this still holds after any sequence of vote
    calls, and so no counter is negative. *)
Theorem counters_nonnegative_while_in_step (w : World)
    (calls : list (string * string * VoteValue))
    (Havailable : faults w = []) (Hstep : in_step w) :
  in_step (run_calls calls w)
  ∧ (∀ postId p, posts (run_calls calls w) !! postId = Some p →
       0 ≤ upVotes p ∧ 0 ≤ downVotes p).
Proof.
  pose proof (run_calls_in_step calls w Havailable Hstep) as Hstep'.
  split; [done|]. intros postId p Hp. destruct (Hstep' postId p Hp). lia.
Qed.

Lemma counters_nonnegative_while_in_step_witness :
  faults w_voted = [] ∧ in_step w_voted
  ∧ in_step (run_calls [("p", "alice", Up); ("p", "bob", Down); ("p", "alice", Up)] w_voted)
  ∧ (∀ postId p,
       posts (run_calls [("p", "alice", Up); ("p", "bob", Down); ("p", "alice", Up)] w_voted)
         !! postId = Some p →
       0 ≤ upVotes p ∧ 0 ≤ downVotes p).
Proof.
  assert (in_step w_voted) as Hstep.
  { intros q p Hq. unfold w_voted, world_of in Hq. cbn [posts] in Hq.
    apply lookup_singleton_Some in Hq as [<- <-]. vm_compute. split; discriminate. }
  split; [reflexivity|]. split; [exact Hstep|].
  exact (counters_nonnegative_while_in_step w_voted
           [("p", "alice", Up); ("p", "bob", Down); ("p", "alice", Up)] eq_refl Hstep).
Defined.

(** When the store rejects the record write of a Switch, the counters
    have moved and the record has not; the Unvote that follows takes the
    down counter below zero.  The invariant needs the store. *)
Example switch_cut_short_then_unvote :
  let w := world_of {["p" := a_post 0 1]}
             {[("p", "alice") := {| vd_value := Some Down |}]} [false; false; true] in
  outcome (vote "p" "alice" Up) w = Rejected Unavailable
  ∧ counters "p" (exec (vote "p" "alice" Up) w) = Some (1, 0)
  ∧ previous_vote (exec (vote "p" "alice" Up) w) "p" "alice" = Some Down
  ∧ counters "p" (run_votes "p" "alice" [Up; Down] w) = Some (1, -1).
Proof. vm_compute. done. Qed.

(** ** What an execution leaves alone *)

Section Frame.

Context {X : Type} (obs : World → X).

Lemma preserves_ret {A} (a : A) : preserves obs (mret a).
Proof. by intros w. Qed.

Lemma preserves_reject {A} e : preserves obs (@reject A e).
Proof. by intros w. Qed.

Lemma preserves_gets {A} (f : World → A) : preserves obs (gets f).
Proof. by intros w. Qed.

Lemma preserves_modify f : (∀ w, obs (f w) = obs w) → preserves obs (modify f).
Proof. intros Hf w. apply Hf. Qed.

Lemma preserves_bind {A B} (m : Promise A) (k : A → Promise B) :
  preserves obs m → (∀ a, preserves obs (k a)) → preserves obs (m ≫= k).
Proof.
  intros Hm Hk w. specialize (Hm w). unfold exec, mbind, Promise_bind, await in *.
  destruct (m w) as [[a|e] w']; cbn in *; [|done].
  rewrite <- Hm. apply Hk.
Qed.

Lemma preserves_try_catch {A} (body : Promise A) handler :
  preserves obs body → (∀ e, preserves obs (handler e)) →
  preserves obs (try_catch body handler).
Proof.
  intros Hm Hk w. specialize (Hm w). unfold exec, try_catch in *.
  destruct (body w) as [[a|e] w']; cbn in *; [done|].
  rewrite <- Hm. apply Hk.
Qed.

Lemma preserves_request c : store_blind obs → preserves obs (request c).
Proof.
  intros [Hlog Hfaults] w. unfold exec, request.
  destruct (faults w) as [|[] fs]; cbn; by rewrite ?Hfaults, Hlog.
Qed.

End Frame.

Ltac frame_step :=
  first
    [ apply preserves_ret | apply preserves_reject | apply preserves_gets
    | apply preserves_request; by split
    | apply preserves_bind; [|intros ?]
    | apply preserves_try_catch; [|intros ?] ].

Lemma vote_preserves {X} (obs : World → X) postId uid value :
  store_blind obs →
  (∀ w, obs (set_votes (delete (postId, uid)) w) = obs w) →
  (∀ d w, obs (set_votes (insert (postId, uid) d) w) = obs w) →
  (∀ f w, obs (set_posts f w) = obs w) →
  preserves obs (vote postId uid value).
Proof.
  intros Hblind Hdelete Hinsert Hposts. unfold vote, getDoc_vote.
  apply preserves_bind; [apply preserves_bind; [by apply preserves_request|intros; frame_step]|].
  intros snap. cbn beta zeta.
  assert (∀ fields, preserves obs (updateDoc_post postId fields)) as Hupdate.
  { intros fields. unfold updateDoc_post.
    apply preserves_bind; [by apply preserves_request|intros _].
    apply preserves_bind; [apply preserves_gets|intros [p|]].
    - by apply preserves_modify.
    - apply preserves_reject. }
  case_decide.
  - apply preserves_bind; [|done].
    apply preserves_bind; [by apply preserves_request|intros _; by apply preserves_modify].
  - apply preserves_bind; [done|intros _].
    apply preserves_bind; [by apply preserves_request|intros _; by apply preserves_modify].
Qed.

Ltac run_service :=
  unfold calls_of, outcome, exec, generatePostSummary, generateCommentSummary,
    getPostSummary, getCommentSummary, createNotification, call_summarizeContent,
    getDocs, addDoc, try_catch, request;
  unfold mbind, mret, Promise_bind, Promise_ret, await, resolve, gets, modify, reject;
  cbn.

(** ** C6: notifications *)

Lemma run_calls_preserves {X} (obs : World → X) calls w :
  (∀ postId uid value, preserves obs (vote postId uid value)) →
  obs (run_calls calls w) = obs w.
Proof.
  intros Hvote. revert w. induction calls as [|[[p u] v] calls IH]; intros w; cbn; [done|].
  rewrite IH. apply Hvote.
Qed.

Lemma createNotification_run type to from postId w :
  notifications (exec (createNotification type to from postId) w)
  = match faults w with
    | true :: _ => notifications w
    | _ => <[fresh (dom (notifications w)) :=
               {| n_type := type; toUid := to; fromUid := from;
                  n_postId := postId; n_createdAt := now w |}]> (notifications w)
    end.
Proof. destruct w as [? ? ? ? ? ? [|[] ?] ? ?]; reflexivity. Qed.

(** C6, counterexample.  alice, who does not own the post, casts an
    up-vote on it: the call is fulfilled, the transition is a Cast, and the
    notifications collection is as empty as before. *)
Lemma cast_by_another_user_notifies_nobody :
  uid <$> posts w_new !! "p" = Some "owner"
  ∧ classify (previous_vote w_new "p" "alice") Up = Cast Up
  ∧ outcome (vote "p" "alice" Up) w_new = Fulfilled tt
  ∧ size (notifications w_new) = 0%nat
  ∧ size (notifications (exec (vote "p" "alice" Up) w_new)) = 0%nat.
Proof. vm_compute. done. Qed.

(** C6, amended.  [vote] writes no notification, whatever the transition
    and whoever the voter, and so does any sequence of vote calls.  A
    notification is written only by a call of [createNotification], which
    adds exactly one record with the fields it is given whenever the store
    serves the write: it looks neither at the transition nor at whether
    [fromUid] equals [toUid]. *)
Theorem notifications_written_by_createNotification_only :
  (∀ w postId uid value,
     notifications (exec (vote postId uid value) w) = notifications w)
  ∧ (∀ calls w, notifications (run_calls calls w) = notifications w)
  ∧ (∀ w type to from postId,
       notifications (exec (createNotification type to from postId) w)
       = match faults w with
         | true :: _ => notifications w
         | _ => <[fresh (dom (notifications w)) :=
                    {| n_type := type; toUid := to; fromUid := from;
                       n_postId := postId; n_createdAt := now w |}]> (notifications w)
         end)
  ∧ (∀ w type to from postId,
       size (notifications (exec (createNotification type to from postId) w))
       = match faults w with
         | true :: _ => size (notifications w)
         | _ => S (size (notifications w))
         end).
Proof.
  assert (∀ postId uid value, preserves notifications (vote postId uid value)) as Hvote.
  { intros. by apply vote_preserves. }
  split; [intros; apply Hvote|]. split; [intros; by apply run_calls_preserves|].
  split; [intros; apply createNotification_run|].
  intros w type to from postId. rewrite createNotification_run.
  assert (notifications w !! fresh (dom (notifications w)) = None) as Hfresh
    by apply not_elem_of_dom, is_fresh.
  destruct (faults w) as [|[] ?]; by rewrite ?map_size_insert_None.
Qed.

Example self_vote_is_notified :
  size (notifications (exec (createNotification upvote "owner" "owner" "p") w_new)) = 1%nat.
Proof. vm_compute. done. Qed.

(** ** C7 and C8: generating summaries *)

Lemma addDoc_genLog {D} c (coll : World → gmap string D) set_coll data :
  (∀ f w, genLog (set_coll f w) = genLog w) →
  preserves genLog (addDoc c coll set_coll data).
Proof.
  intros Hset. unfold addDoc. repeat frame_step.
  apply preserves_modify. intros w. cbn. apply Hset.
Qed.

Lemma generatePostSummary_genLog gen postId content w :
  genLog (exec (generatePostSummary gen postId content) w)
  = genLog w ++ [{| sr_content := content; sr_type := post_t; maxLength := 200 |}].
Proof.
  unfold generatePostSummary, exec, try_catch, mbind, Promise_bind, await,
    call_summarizeContent.
  destruct (gen _ _) as [| |text]; cbn; try reflexivity.
  set (w' := log_gen _ w).
  pose proof (addDoc_genLog POST_SUMMARIES postSummaries set_postSummaries
    (λ t, {| ps_postId := postId; ps_summary := text; ps_createdAt := t;
             ps_updatedAt := t |}) (λ _ _, eq_refl) w') as Hadd.
  unfold exec in Hadd. destruct (addDoc _ _ _ _ w') as [[id|e] w'']; cbn in *; by rewrite Hadd.
Qed.

Lemma generatePostSummary_calls gen postId content w :
  calls_of (generatePostSummary gen postId content) w = []
  ∨ calls_of (generatePostSummary gen postId content) w = [AddDoc POST_SUMMARIES].
Proof.
  destruct w as [? ? ? ? ? ? fs tr gl]. run_service.
  destruct (gen _ _) as [| |text]; cbn; rewrite ?drop_all; auto.
  destruct fs as [|[] fs]; cbn; rewrite drop_app_length; auto.
Qed.

Lemma getPostSummary_genLog postId : preserves genLog (getPostSummary postId).
Proof. unfold getPostSummary, getDocs. repeat frame_step. by destruct (head _); frame_step. Qed.

(** C7, counterexample.  Two calls for the same post with the same
    content: the first stores a summary, which [getPostSummary] then
    finds; the second sends the same request to the summarizer again and
    stores a second record. *)
Lemma same_content_is_generated_twice :
  let w1 := exec (generatePostSummary gen_echo "p" "Panels") w_new in
  let w2 := exec (generatePostSummary gen_echo "p" "Panels") w1 in
  (snd <$> outcome_value (getPostSummary "p") w1)
    = Some {| ps_postId := "p"; ps_summary := "Panels";
              ps_createdAt := 100; ps_updatedAt := 100 |}
  ∧ genLog w1 = [{| sr_content := "Panels"; sr_type := post_t; maxLength := 200 |}]
  ∧ genLog w2 = [{| sr_content := "Panels"; sr_type := post_t; maxLength := 200 |};
                 {| sr_content := "Panels"; sr_type := post_t; maxLength := 200 |}]
  ∧ size (postSummaries w2) = 2%nat.
Proof. vm_compute. done. Qed.

Lemma generatePostSummary_run gen postId content w :
  let req := {| sr_content := content; sr_type := post_t; maxLength := 200 |} in
  (outcome (generatePostSummary gen postId content) w,
   postSummaries (exec (generatePostSummary gen postId content) w))
  = match gen (length (genLog w)) req, faults w with
    | GenSome text, true :: _ => (Fulfilled None, postSummaries w)
    | GenSome text, _ =>
        (Fulfilled (Some text),
         <[fresh (dom (postSummaries w)) :=
             {| ps_postId := postId; ps_summary := text;
                ps_createdAt := now w; ps_updatedAt := now w |}]> (postSummaries w))
    | _, _ => (Fulfilled None, postSummaries w)
    end.
Proof.
  destruct w as [? ? ? ? ? ? fs ? gl]. run_service.
  destruct (gen _ _) as [| |text]; destruct fs as [|[] fs]; reflexivity.
Qed.

Lemma getPostSummary_reads_only postId w :
  calls_of (getPostSummary postId) w = [GetDocs POST_SUMMARIES postId]
  ∧ (posts (exec (getPostSummary postId) w), votes (exec (getPostSummary postId) w),
     notifications (exec (getPostSummary postId) w),
     postSummaries (exec (getPostSummary postId) w),
     commentSummaries (exec (getPostSummary postId) w))
    = (posts w, votes w, notifications w, postSummaries w, commentSummaries w).
Proof.
  destruct w as [? ? ? pss ? ? [|[] fs] tr ?]; run_service;
    destruct (head (latest_for postId pss)); cbn; by rewrite drop_app_length.
Qed.

(** C7, amended.  [generatePostSummary] sends exactly one request to the
    summarizer on every call and reads nothing from the store before or
    after it, whatever summaries are stored.  When the summarizer answers
    and the store serves the write, it stores exactly one new record
    under an unused id, with the post id, the answer and the server time,
    and resolves to the answer; when the summarizer answers and the store
    rejects the write, or the summarizer fails, it stores nothing and
    resolves to [null].  [getPostSummary] never calls the summarizer: its
    one store call is the query, and it writes to no collection. *)
Theorem generatePostSummary_always_generates :
  ∀ gen w postId content,
    let req := {| sr_content := content; sr_type := post_t; maxLength := 200 |} in
    let run := generatePostSummary gen postId content in
    genLog (exec run w) = genLog w ++ [req]
    ∧ existsb is_query (calls_of run w) = false
    ∧ (outcome run w, postSummaries (exec run w))
      = match gen (length (genLog w)) req, faults w with
        | GenSome text, true :: _ => (Fulfilled None, postSummaries w)
        | GenSome text, _ =>
            (Fulfilled (Some text),
             <[fresh (dom (postSummaries w)) :=
                 {| ps_postId := postId; ps_summary := text;
                    ps_createdAt := now w; ps_updatedAt := now w |}]> (postSummaries w))
        | _, _ => (Fulfilled None, postSummaries w)
        end
    ∧ postSummaries w !! fresh (dom (postSummaries w)) = None
    ∧ genLog (exec (getPostSummary postId) w) = genLog w
    ∧ calls_of (getPostSummary postId) w = [GetDocs POST_SUMMARIES postId]
    ∧ (posts (exec (getPostSummary postId) w), votes (exec (getPostSummary postId) w),
       notifications (exec (getPostSummary postId) w),
       postSummaries (exec (getPostSummary postId) w),
       commentSummaries (exec (getPostSummary postId) w))
      = (posts w, votes w, notifications w, postSummaries w, commentSummaries w).
Proof.
  intros gen w postId content req run. subst req run.
  split; [apply generatePostSummary_genLog|].
  split; [by destruct (generatePostSummary_calls gen postId content w) as [-> | ->]|].
  split; [apply generatePostSummary_run|].
  split; [apply not_elem_of_dom, is_fresh|].
  split; [apply getPostSummary_genLog|].
  apply getPostSummary_reads_only.
Qed.

Lemma generatePostSummary_failed gen w postId content :
  gen_failed (gen (length (genLog w))
                {| sr_content := content; sr_type := post_t; maxLength := 200 |}) = true →
  generatePostSummary gen postId content w
  = (Fulfilled None,
     log_gen {| sr_content := content; sr_type := post_t; maxLength := 200 |} w).
Proof. run_service. by destruct (gen _ _). Qed.

Lemma generateCommentSummary_failed gen w postId comments :
  gen_failed (gen (length (genLog w))
                {| sr_content := combinedContent comments; sr_type := comments_t;
                   maxLength := 250 |}) = true →
  generateCommentSummary gen postId comments w
  = (Fulfilled None,
     log_gen {| sr_content := combinedContent comments; sr_type := comments_t;
                maxLength := 250 |} w).
Proof. run_service. by destruct (gen _ _). Qed.

(** C8.  When the summarizer throws or resolves to nothing,
    [generatePostSummary] and [generateCommentSummary] are fulfilled with
    [null]: nothing is rejected to the caller, no store call is made, and
    both summary collections are as they were. *)
Theorem generator_failure_writes_nothing :
  ∀ gen w postId,
    (∀ content,
       gen_failed (gen (length (genLog w))
                     {| sr_content := content; sr_type := post_t; maxLength := 200 |})
       = true →
       let m := generatePostSummary gen postId content in
       outcome m w = Fulfilled None
       ∧ postSummaries (exec m w) = postSummaries w
       ∧ commentSummaries (exec m w) = commentSummaries w
       ∧ trace (exec m w) = trace w)
    ∧ (∀ comments,
         gen_failed (gen (length (genLog w))
                       {| sr_content := combinedContent comments; sr_type := comments_t;
                          maxLength := 250 |})
         = true →
         let m := generateCommentSummary gen postId comments in
         outcome m w = Fulfilled None
         ∧ postSummaries (exec m w) = postSummaries w
         ∧ commentSummaries (exec m w) = commentSummaries w
         ∧ trace (exec m w) = trace w).
Proof.
  intros gen w postId. split.
  - intros content Hfail m. subst m. unfold outcome, exec.
    by rewrite generatePostSummary_failed.
  - intros comments Hfail m. subst m. unfold outcome, exec.
    by rewrite generateCommentSummary_failed.
Qed.

Lemma generator_failure_writes_nothing_witness :
  (gen_failed (gen_down (length (genLog w_new))
                 {| sr_content := "Panels"; sr_type := post_t; maxLength := 200 |}) = true
   ∧ outcome (generatePostSummary gen_down "p" "Panels") w_new = Fulfilled None
   ∧ postSummaries (exec (generatePostSummary gen_down "p" "Panels") w_new)
     = postSummaries w_new)
  ∧ (let w1 := exec (generatePostSummary gen_down "p" "Panels") w_new in
     gen_failed (gen_down (length (genLog w1))
                   {| sr_content := combinedContent two_comments; sr_type := comments_t;
                      maxLength := 250 |}) = true
     ∧ outcome (generateCommentSummary gen_down "p" two_comments) w1 = Fulfilled None
     ∧ commentSummaries (exec (generateCommentSummary gen_down "p" two_comments) w1)
       = commentSummaries w1).
Proof.
  split.
  - split; [reflexivity|].
    destruct (generator_failure_writes_nothing gen_down w_new "p") as [Hpost _].
    destruct (Hpost "Panels" eq_refl) as (Hout & Hps & _). by split.
  - intros w1. split; [reflexivity|].
    destruct (generator_failure_writes_nothing gen_down w1 "p") as [_ Hcomments].
    destruct (Hcomments two_comments eq_refl) as (Hout & _ & Hcs & _). by split.
Defined.

Example combinedContent_two_comments :
  combinedContent two_comments
  = "Alice: Nice" +:+ newline +:+ newline +:+ "Bob: How much?".
Proof. reflexivity. Qed.

Example generated_summary_is_stored :
  let m := generatePostSummary gen_echo "p" "Panels" in
  outcome m w_new = Fulfilled (Some "Panels")
  ∧ map_to_list (postSummaries (exec m w_new))
    = [(fresh (∅ : gset string),
        {| ps_postId := "p"; ps_summary := "Panels";
           ps_createdAt := 100; ps_updatedAt := 100 |})].
Proof. vm_compute. done. Qed.

(** ** C10: reading summaries *)

Section Latest.

Context {D : Type} `{Summary D}.
Implicit Types (x y z : string * D) (m : gmap string D).

Lemma listed_first_cases x y : listed_first x y = x ∨ listed_first x y = y.
Proof. unfold listed_first. repeat case_match; auto. Qed.

Lemma listed_first_ge x y :
  updatedAtOf x.2 ≤ updatedAtOf (listed_first x y).2
  ∧ updatedAtOf y.2 ≤ updatedAtOf (listed_first x y).2.
Proof.
  unfold listed_first.
  destruct (Z.ltb_spec (updatedAtOf x.2) (updatedAtOf y.2)); [lia|].
  destruct (Z.ltb_spec (updatedAtOf y.2) (updatedAtOf x.2)); [lia|].
  case_match; lia.
Qed.

Lemma foldl_listed_first_elem x ys : foldl listed_first x ys ∈ x :: ys.
Proof.
  revert x. induction ys as [|y ys IH]; intros x; cbn; [apply list_elem_of_here|].
  specialize (IH (listed_first x y)). apply elem_of_cons in IH as [-> | IH].
  - destruct (listed_first_cases x y) as [-> | ->];
      [apply list_elem_of_here|apply list_elem_of_further, list_elem_of_here].
  - by do 2 apply list_elem_of_further.
Qed.

Lemma foldl_listed_first_ge x ys z :
  z ∈ x :: ys → updatedAtOf z.2 ≤ updatedAtOf (foldl listed_first x ys).2.
Proof.
  revert x z. induction ys as [|y ys IH]; intros x z Hz; cbn.
  - apply list_elem_of_singleton in Hz as ->. lia.
  - pose proof (listed_first_ge x y) as [Hx Hy].
    pose proof (IH (listed_first x y) _ (list_elem_of_here _ _)) as Hseed.
    apply elem_of_cons in Hz as [-> | Hz]; [lia|].
    apply elem_of_cons in Hz as [-> | Hz]; [lia|].
    apply IH. by apply list_elem_of_further.
Qed.

Lemma latest_for_is_latest postId m :
  is_latest_for postId m (head (latest_for postId m)).
Proof.
  unfold latest_for.
  destruct (filter _ (map_to_list m)) as [|x xs] eqn:Hl; cbn.
  - intros id d Hd Hpost.
    assert ((id, d) ∈ filter (λ kv, postIdOf kv.2 = postId) (map_to_list m)) as Hin.
    { apply list_elem_of_filter. split; [done|]. by apply elem_of_map_to_list. }
    rewrite Hl in Hin. by apply elem_of_nil in Hin.
  - pose proof (foldl_listed_first_elem x xs) as Hin.
    pose proof (foldl_listed_first_ge x xs) as Hge.
    destruct (foldl listed_first x xs) as [id d]. rewrite <- Hl in Hin.
    apply list_elem_of_filter in Hin as [Hpost Hin]. apply elem_of_map_to_list in Hin.
    split; [done|]. split; [done|]. intros id' d' Hd' Hpost'.
    apply (Hge (id', d')). rewrite <- Hl.
    apply list_elem_of_filter. split; [done|]. by apply elem_of_map_to_list.
Qed.

End Latest.

Lemma getPostSummary_run postId w :
  outcome (getPostSummary postId) w
  = Fulfilled match faults w with
              | true :: _ => None
              | _ => head (latest_for postId (postSummaries w))
              end.
Proof.
  destruct w as [? ? ? pss ? ? [|[] ?] ? ?]; run_service;
    by destruct (head (latest_for postId pss)).
Qed.

Lemma getCommentSummary_run postId w :
  outcome (getCommentSummary postId) w
  = Fulfilled match faults w with
              | true :: _ => None
              | _ => head (latest_for postId (commentSummaries w))
              end.
Proof.
  destruct w as [? ? ? ? css ? [|[] ?] ? ?]; run_service;
    by destruct (head (latest_for postId css)).
Qed.

(** C10.  [getPostSummary] and [getCommentSummary] are always fulfilled,
    never rejected.  They resolve to [null] when the store rejects the
    query; otherwise to the latest summary of the post in their
    collection: [null] when the post has no summary there, else a summary
    of that post whose [updatedAt] no other summary of the post exceeds. *)
Theorem get_summary_never_throws :
  ∀ w postId,
    (∃ r, outcome (getPostSummary postId) w = Fulfilled r
          ∧ match faults w with
            | true :: _ => r = None
            | _ => is_latest_for postId (postSummaries w) r
            end)
    ∧ (∃ r, outcome (getCommentSummary postId) w = Fulfilled r
            ∧ match faults w with
              | true :: _ => r = None
              | _ => is_latest_for postId (commentSummaries w) r
              end).
Proof.
  intros w postId. split.
  - eexists. split; [apply getPostSummary_run|].
    destruct (faults w) as [|[] ?]; auto using latest_for_is_latest.
  - eexists. split; [apply getCommentSummary_run|].
    destruct (faults w) as [|[] ?]; auto using latest_for_is_latest.
Qed.

Example latest_summary_of_a_post :
  outcome_value (getPostSummary "p") (w_summaries [])
  = Some ("s2", {| ps_postId := "p"; ps_summary := "new"; ps_createdAt := 9;
                   ps_updatedAt := 9 |})
  ∧ outcome (getPostSummary "p") (w_summaries [true]) = Fulfilled None
  ∧ outcome (getPostSummary "r") (w_summaries []) = Fulfilled None
  ∧ outcome (getCommentSummary "p") (w_summaries []) = Fulfilled None.
Proof. vm_compute. done. Qed.

(** ** C9: one vote record per voter and subject *)

Lemma records_of_at_most_one (postId uid : string) (vs : gmap (string * string) VoteData) :
  (length (records_of postId uid vs) ≤ 1)%nat.
Proof.
  unfold records_of.
  assert (NoDup (filter (λ kv, kv.1 = (postId, uid)) (map_to_list vs)).*1) as Hnd.
  { apply (sublist_NoDup _ ((map_to_list vs).*1)); [apply NoDup_fst_map_to_list|].
    apply fmap_sublist, sublist_filter. }
  assert (∀ kv, kv ∈ filter (λ kv, kv.1 = (postId, uid)) (map_to_list vs) →
                kv.1 = (postId, uid)) as Hkey.
  { intros kv Hin. by apply list_elem_of_filter in Hin as [? _]. }
  destruct (filter _ (map_to_list vs)) as [|a [|b l]]; cbn; [lia|lia|].
  exfalso. apply NoDup_cons in Hnd as [Hnotin _]. apply Hnotin. cbn.
  rewrite (Hkey a), <- (Hkey b); [apply list_elem_of_here| |].
  - apply list_elem_of_further, list_elem_of_here.
  - apply list_elem_of_here.
Qed.

Lemma vote_other_records (postId uid : string) value (k : string * string) :
  k ≠ (postId, uid) → preserves (λ w, votes w !! k) (vote postId uid value).
Proof.
  intros Hne. apply vote_preserves; [done|..]; intros; cbn.
  - by apply lookup_delete_ne.
  - by apply lookup_insert_ne.
  - done.
Qed.

(** C9.  The ledger holds at most one record under a (subject, voter)
    pair, before and after any sequence of vote calls, whether or not the
    store serves them; a pair without a record reads as no vote; and a
    call of [vote] leaves the records of every other pair untouched. *)
Theorem one_vote_record_per_voter :
  ∀ (calls : list (string * string * VoteValue)) (w : World) (postId uid : string),
    let w' := run_calls calls w in
    (length (records_of postId uid (votes w')) ≤ 1)%nat
    ∧ (votes w' !! (postId, uid) = None → previous_vote w' postId uid = None)
    ∧ (∀ value k, k ≠ (postId, uid) →
         votes (exec (vote postId uid value) w') !! k = votes w' !! k).
Proof.
  intros calls w postId uid w'. split; [apply records_of_at_most_one|]. split.
  - unfold previous_vote. by intros ->.
  - intros value k Hne. by apply (vote_other_records postId uid value k Hne w').
Qed.

Lemma one_vote_record_per_voter_witness :
  let w' := run_calls [("p", "bob", Down); ("p", "alice", Up)] w_voted in
  (length (records_of "p" "alice" (votes w')) ≤ 1)%nat
  ∧ (votes w' !! ("p", "alice") = None ∧ previous_vote w' "p" "alice" = None)
  ∧ (("p", "bob") ≠ ("p", "alice")
     ∧ votes (exec (vote "p" "alice" Down) w') !! ("p", "bob") = votes w' !! ("p", "bob")).
Proof.
  intros w'.
  destruct (one_vote_record_per_voter [("p", "bob", Down); ("p", "alice", Up)]
              w_voted "p" "alice") as (Hone & Hnone & Hframe).
  split; [exact Hone|]. split.
  - split; [reflexivity|]. apply Hnone. reflexivity.
  - split; [discriminate|]. apply Hframe. discriminate.
Defined.

(** The scenario of the specification, on the counters: A casts +1, A
    casts +1 again, A casts -1, B casts -1. *)
Example scenario_counters :
  let calls := [("p", "A", Up); ("p", "A", Up); ("p", "A", Down); ("p", "B", Down)] in
  counters "p" (run_calls (take 1 calls) w_new) = Some (1, 0)
  ∧ counters "p" (run_calls (take 2 calls) w_new) = Some (0, 0)
  ∧ counters "p" (run_calls (take 3 calls) w_new) = Some (0, 1)
  ∧ counters "p" (run_calls calls w_new) = Some (0, 2)
  ∧ size (notifications (run_calls calls w_new)) = 0%nat.
Proof. vm_compute. done. Qed.

(** * The rest of the service *)

(** ** Posts *)

Lemma addDoc_faults {D} c (coll : World → gmap string D) set_coll data w :
  (∀ f w, faults (set_coll f w) = faults w) →
  faults w = [] → faults (exec (addDoc c coll set_coll data) w) = [].
Proof.
  intros Hset H. destruct w as [? ? ? ? ? ? fs ? ?]; cbn in H; subst fs.
  run_service. by rewrite Hset.
Qed.

Lemma createPost_run trim u a t c m w :
  createPost trim u a t c m w
  = match faults w with
    | true :: fs => (Rejected Unavailable, set_faults fs (log_call (AddDoc FORUM_POSTS) w))
    | false :: fs =>
        (Fulfilled tt,
         set_now (now w + 1)
           (set_posts
              (insert (fresh (dom (posts w)))
                 {| uid := u; author := a; title := trim t; content := trim c;
                    createdAt := now w; likesCount := 0; upVotes := 0; downVotes := 0;
                    mediaUrl := or_null m |})
              (set_faults fs (log_call (AddDoc FORUM_POSTS) w))))
    | [] =>
        (Fulfilled tt,
         set_now (now w + 1)
           (set_posts
              (insert (fresh (dom (posts w)))
                 {| uid := u; author := a; title := trim t; content := trim c;
                    createdAt := now w; likesCount := 0; upVotes := 0; downVotes := 0;
                    mediaUrl := or_null m |})
              (log_call (AddDoc FORUM_POSTS) w)))
    end.
Proof. destruct w as [? ? ? ? ? ? [|[] ?] ? ?]; reflexivity. Qed.

Lemma or_null_not_empty m : or_null m ≠ Some EmptyString.
Proof. by destruct m as [[|]|]. Qed.

Lemma fresh_post_id w : posts w !! fresh (dom (posts w)) = None.
Proof. apply not_elem_of_dom, is_fresh. Qed.

(** X1.  When the store serves the write, [createPost] adds exactly one
    post, under an id that no post had: its three counters are 0, its
    owner and author are the ones given, its [createdAt] is the server
    time and its [mediaUrl] is never the empty string; every other post
    is as it was.  When the store rejects the write the call is rejected
    and no post is added.  The ledger is untouched either way. *)
Theorem createPost_adds_one_zeroed_post :
  ∀ (trim : string → string) w u a t c m,
    let run := createPost trim u a t c m in
    let id := fresh (dom (posts w)) in
    votes (exec run w) = votes w
    ∧ match faults w with
      | true :: _ =>
          outcome run w = Rejected Unavailable ∧ posts (exec run w) = posts w
      | _ =>
          outcome run w = Fulfilled tt
          ∧ posts w !! id = None
          ∧ size (posts (exec run w)) = S (size (posts w))
          ∧ (∀ q, q ≠ id → posts (exec run w) !! q = posts w !! q)
          ∧ ∃ p, posts (exec run w) !! id = Some p
                 ∧ (upVotes p, downVotes p, likesCount p) = (0, 0, 0)
                 ∧ (uid p, author p) = (u, a)
                 ∧ (title p, content p) = (trim t, trim c)
                 ∧ createdAt p = now w
                 ∧ mediaUrl p ≠ Some EmptyString
      end.
Proof.
  intros trim w u a t c m run id. subst run id. unfold outcome, exec.
  rewrite createPost_run. pose proof (fresh_post_id w) as Hfresh.
  destruct (faults w) as [|[] fs]; cbn; (split; [done|]); try done.
  all: split; [done|]; split; [done|]; split; [by apply map_size_insert_None|].
  all: split; [intros q Hq; by apply lookup_insert_ne|].
  all: eexists; split; [apply lookup_insert_eq|]; cbn;
    repeat split; apply or_null_not_empty.
Qed.

Lemma createPost_faults trim u a t c m w :
  faults w = [] → faults (exec (createPost trim u a t c m) w) = [].
Proof. intros H. unfold exec. by rewrite createPost_run, H. Qed.

Lemma vote_outcome w postId uid value :
  faults w = [] →
  outcome (vote postId uid value) w
  = match posts w !! postId with
    | Some _ => Fulfilled tt
    | None => Rejected NotFound
    end.
Proof. intros H. vote_cases w postId uid value; reflexivity. Qed.

(** X2.  With the store available, the first vote on a post that
    [createPost] has just added is a Cast whoever casts it, provided the
    ledger holds no record of the voter under the new id; it takes the
    counters of the new post from (0, 0) to (1, 0) or (0, 1). *)
Theorem first_vote_on_created_post (trim : string → string) (w : World)
    (u a t c : string) (m : option string) (voter : string) (value : VoteValue)
    (Havailable : faults w = [])
    (Hnovote : previous_vote w (fresh (dom (posts w))) voter = None) :
  let id := fresh (dom (posts w)) in
  let w1 := exec (createPost trim u a t c m) w in
  counters id w1 = Some (0, 0)
  ∧ classify (previous_vote w1 id voter) value = Cast value
  ∧ outcome (vote id voter value) w1 = Fulfilled tt
  ∧ counters id (exec (vote id voter value) w1)
    = Some (match value with Up => (1, 0) | Down => (0, 1) end).
Proof.
  intros id w1.
  assert (faults w1 = []) as Hav1 by by apply createPost_faults.
  assert (posts w1 = <[id := {| uid := u; author := a; title := trim t;
                                content := trim c; createdAt := now w; likesCount := 0;
                                upVotes := 0; downVotes := 0; mediaUrl := or_null m |}]>
                       (posts w)) as Hposts.
  { subst w1. unfold exec. by rewrite createPost_run, Havailable. }
  assert (votes w1 = votes w) as Hvotes.
  { subst w1. unfold exec. by rewrite createPost_run, Havailable. }
  assert (previous_vote w1 id voter = None) as Hprev.
  { unfold previous_vote. by rewrite Hvotes. }
  assert (counters id w1 = Some (0, 0)) as Hzero.
  { unfold counters. by rewrite Hposts, lookup_insert_eq. }
  split; [done|]. split; [by rewrite Hprev|]. split.
  - by rewrite vote_outcome, Hposts, lookup_insert_eq.
  - rewrite vote_counters, Hprev, Hzero by done. by destruct value.
Qed.

Lemma first_vote_on_created_post_witness :
  faults w_new = []
  ∧ previous_vote w_new (fresh (dom (posts w_new))) "bob" = None
  ∧ (let id := fresh (dom (posts w_new)) in
     let w1 := exec (createPost trim_spaces "bob" "Bob" " Wind " "Turbines" None) w_new in
     counters id w1 = Some (0, 0)
     ∧ classify (previous_vote w1 id "bob") Down = Cast Down
     ∧ outcome (vote id "bob" Down) w1 = Fulfilled tt
     ∧ counters id (exec (vote id "bob" Down) w1) = Some (0, 1)).
Proof.
  split; [reflexivity|]. split; [reflexivity|].
  exact (first_vote_on_created_post trim_spaces w_new "bob" "Bob" " Wind " "Turbines"
           None "bob" Down eq_refl eq_refl).
Defined.

Lemma updatePost_run trim postId t c w :
  updatePost trim postId t c w
  = match faults w with
    | true :: fs => (Rejected Unavailable, set_faults fs w)
    | fs =>
        let w' := set_faults (tail fs) w in
        match posts w !! postId with
        | Some p =>
            (Fulfilled tt, set_posts (insert postId (set_text (trim t) (trim c) p)) w')
        | None => (Rejected NotFound, w')
        end
    end.
Proof.
  destruct w as [ps ? ? ? ? ? [|[] ?] ? ?]; cbn;
    unfold updatePost, served, mbind, Promise_bind, await, gets, modify, reject; cbn;
    by destruct (ps !! postId).
Qed.

(** X3.  [updatePost] never touches what the votes rest on: whatever the
    store does, after the call every post has the counters, the owner, the
    author, the creation time and the media it had, no post has appeared
    or gone, and the ledger is as it was. *)
Theorem updatePost_keeps_counters_and_owner :
  ∀ (trim : string → string) w postId t c,
    let w' := exec (updatePost trim postId t c) w in
    votes w' = votes w
    ∧ dom (posts w') = dom (posts w)
    ∧ ∀ q, counters q w' = counters q w
           ∧ (λ p, (uid p, author p, createdAt p, likesCount p, mediaUrl p)) <$> posts w' !! q
             = (λ p, (uid p, author p, createdAt p, likesCount p, mediaUrl p)) <$> posts w !! q.
Proof.
  intros trim w postId t c w'. subst w'. unfold exec, counters.
  rewrite updatePost_run.
  destruct (faults w) as [|[] fs]; cbn; try done;
    destruct (posts w !! postId) as [p|] eqn:Hp; cbn; try done.
  all: split; [done|]; split; [by apply dom_insert_lookup_L|].
  all: intros q; destruct (decide (q = postId)) as [->|Hne];
    [by rewrite lookup_insert_eq, Hp|by rewrite lookup_insert_ne].
Qed.

(** X4.  With the store available, [updatePost] on an id that no post has
    is rejected and writes nothing; on an existing post it is fulfilled
    and stores the trimmed title and content.  Either way a second call
    with the same arguments leaves the posts as the first one left them. *)
Theorem updatePost_missing_or_idempotent (trim : string → string) (w : World)
    (postId t c : string) (Havailable : faults w = []) :
  let run := updatePost trim postId t c in
  match posts w !! postId with
  | None => outcome run w = Rejected NotFound ∧ posts (exec run w) = posts w
  | Some p =>
      outcome run w = Fulfilled tt
      ∧ (λ p', (title p', content p')) <$> posts (exec run w) !! postId
        = Some (trim t, trim c)
  end
  ∧ posts (exec run (exec run w)) = posts (exec run w).
Proof.
  intros run. subst run. unfold outcome, exec. rewrite !updatePost_run, Havailable. cbn.
  destruct (posts w !! postId) as [p|] eqn:Hp; cbn.
  - rewrite lookup_insert_eq. cbn. by rewrite insert_insert_eq.
  - by rewrite Hp.
Qed.

Lemma updatePost_missing_or_idempotent_witness :
  faults w_new = []
  ∧ (outcome (updatePost trim_spaces "gone" "T" "C") w_new = Rejected NotFound
     ∧ posts (exec (updatePost trim_spaces "gone" "T" "C") w_new) = posts w_new)
  ∧ (outcome (updatePost trim_spaces "p" "  Wind " "Turbines ") w_new = Fulfilled tt
     ∧ (λ p', (title p', content p'))
         <$> posts (exec (updatePost trim_spaces "p" "  Wind " "Turbines ") w_new) !! "p"
       = Some ("Wind", "Turbines")).
Proof.
  split; [reflexivity|].
  destruct (updatePost_missing_or_idempotent trim_spaces w_new "gone" "T" "C" eq_refl)
    as [Hmissing _].
  split; [exact Hmissing|].
  destruct (updatePost_missing_or_idempotent trim_spaces w_new "p" "  Wind " "Turbines "
              eq_refl) as [Htext _].
  exact Htext.
Defined.

(** ** Deleting a post *)



Lemma delete_served_available ids m k :
  delete_served [] ids m !! k = if decide (k ∈ ids) then None else m !! k.
Proof.
  revert m. induction ids as [|a ids IH]; intros m; cbn; [done|].
  rewrite IH.
  destruct (decide (k ∈ ids)) as [Hin|Hnin];
    destruct (decide (k ∈ a :: ids)) as [Hin'|Hnin']; try done.
  - exfalso. apply Hnin'. by apply list_elem_of_further.
  - apply elem_of_cons in Hin' as [->|?]; [apply lookup_delete_eq|done].
  - apply lookup_delete_ne. intros ->. apply Hnin', list_elem_of_here.
Qed.

Lemma promise_all_deletes (l : list (string * CommentData)) s :
  let fs := faults (world s) in
  promise_all (map (λ d, deleteDoc_comment d.1) l) s
  = (if existsb (λ f, f) (take (length l) fs)
     then Rejected Unavailable else Fulfilled (map (λ _, tt) l),
     {| world := set_faults (drop (length l) fs) (world s);
        comments := delete_served fs l.*1 (comments s) |}).
Proof.
  revert s. induction l as [|[k d] l IH]; intros [w cs]; cbn.
  - unfold act_ret. rewrite drop_0. by destruct w.
  - unfold deleteDoc_comment at 1, lift, served, mbind, Action_bind, act_bind, act_modify.
    destruct w as [? ? ? ? ? ? [|[] fs] ? ?]; cbn; rewrite IH; cbn.
    + rewrite take_nil, drop_nil. cbn. done.
    + done.
    + by destruct (existsb (λ f : bool, f) _).
Qed.

Ltac run_action :=
  unfold act_outcome, act_exec, deletePost, createComment, updateComment, deleteComment,
    deleteDoc_comment, lift, served;
  unfold mbind, mret, Action_bind, Action_ret, Promise_bind, Promise_ret, act_bind,
    act_ret, act_reject, act_gets, act_modify, await, resolve, gets, modify, reject;
  cbn.

Lemma deletePost_rejected_at_once postId s fs :
  faults (world s) = true :: fs →
  deletePost postId s = (Rejected Unavailable, set_world (set_faults fs) s).
Proof.
  destruct s as [[? ? ? ? ? ? fs0 ? ?] cs]; cbn. intros ->. reflexivity.
Qed.

Lemma deletePost_rejected_at_query postId s fs :
  faults (world s) = false :: true :: fs →
  deletePost postId s
  = (Rejected Unavailable,
     set_world (λ w, set_posts (delete postId) (set_faults fs w)) s).
Proof.
  destruct s as [[? ? ? ? ? ? fs0 ? ?] cs]; cbn. intros ->. reflexivity.
Qed.

Lemma deletePost_served postId s fs :
  faults (world s) = [] ∧ fs = [] ∨ faults (world s) = false :: false :: fs →
  let l := comments_where postId (comments s) in
  deletePost postId s
  = (if existsb (λ f, f) (take (length l) fs) then Rejected Unavailable else Fulfilled tt,
     {| world := set_posts (delete postId) (set_faults (drop (length l) fs) (world s));
        comments := delete_served fs l.*1 (comments s) |}).
Proof.
  destruct s as [[? ? ? ? ? ? fs0 ? ?] cs]; cbn.
  intros [[-> ->]| ->]; run_action; rewrite promise_all_deletes; cbn;
    rewrite ?take_nil, ?drop_nil; cbn; try done.
  by destruct (existsb (λ f : bool, f) _).
Qed.

Lemma comments_where_spec postId (m : gmap string CommentData) k d :
  (k, d) ∈ comments_where postId m ↔ m !! k = Some d ∧ cd_postId d = postId.
Proof.
  unfold comments_where, docs_by_id. rewrite list_elem_of_filter.
  rewrite merge_sort_Permutation, elem_of_map_to_list. cbn. tauto.
Qed.


Lemma comments_where_ids postId (m : gmap string CommentData) k :
  k ∈ (comments_where postId m).*1 ↔ ∃ d, m !! k = Some d ∧ cd_postId d = postId.
Proof.
  rewrite list_elem_of_fmap. split.
  - intros [[k' d] [-> Hin]]. exists d. by apply comments_where_spec.
  - intros [d Hd]. exists (k, d). split; [done|]. by apply comments_where_spec.
Qed.

(** X5.  With the store available, [deletePost] is fulfilled whether or
    not the post exists; afterwards no post has the id, every other post
    is as it was, and the comments left are exactly the comments of other
    posts, each unchanged. *)
Theorem deletePost_removes_post_and_its_comments (postId : string) (s : Forum)
    (Havailable : faults (world s) = []) :
  let s' := act_exec (deletePost postId) s in
  act_outcome (deletePost postId) s = Fulfilled tt
  ∧ posts (world s') = delete postId (posts (world s))
  ∧ (∀ k d, comments s' !! k = Some d ↔ comments s !! k = Some d ∧ cd_postId d ≠ postId)
  ∧ faults (world s') = [].
Proof.
  intros s'. subst s'. unfold act_outcome, act_exec.
  rewrite (deletePost_served postId s []) by auto. cbn. rewrite take_nil, drop_nil. cbn.
  split; [done|]. split; [done|]. split; [|done].
  intros k d. rewrite delete_served_available.
  case_decide as Hin.
  - apply comments_where_ids in Hin as [d' [Hd' Hpost]].
    split; [done|]. intros [Hd Hne]. congruence.
  - split.
    + intros Hd. split; [done|]. intros Hpost. apply Hin, comments_where_ids. eauto.
    + by intros [? _].
Qed.

Lemma deletePost_removes_post_and_its_comments_witness :
  faults (world (f_comments [])) = []
  ∧ (let s' := act_exec (deletePost "p") (f_comments []) in
     act_outcome (deletePost "p") (f_comments []) = Fulfilled tt
     ∧ posts (world s') = delete "p" (posts (world (f_comments [])))
     ∧ (∀ k d, comments s' !! k = Some d
               ↔ comments (f_comments []) !! k = Some d ∧ cd_postId d ≠ "p")
     ∧ faults (world s') = []).
Proof.
  split; [reflexivity|].
  exact (deletePost_removes_post_and_its_comments "p" (f_comments []) eq_refl).
Defined.

(** X6.  [deletePost] deletes the post before it looks for the comments.
    When the store rejects the first call nothing is deleted; when it
    serves the first call and rejects the query for the comments, the call
    is rejected with the post gone and every comment, those of the post
    included, still there. *)
Theorem deletePost_cut_short :
  ∀ (postId : string) (s : Forum) (fs : list bool),
    let s' := act_exec (deletePost postId) s in
    (faults (world s) = true :: fs →
     act_outcome (deletePost postId) s = Rejected Unavailable
     ∧ posts (world s') = posts (world s) ∧ comments s' = comments s)
    ∧ (faults (world s) = false :: true :: fs →
       act_outcome (deletePost postId) s = Rejected Unavailable
       ∧ posts (world s') = delete postId (posts (world s))
       ∧ comments s' = comments s).
Proof.
  intros postId s fs s'. subst s'. unfold act_outcome, act_exec. split; intros Hfs.
  - by rewrite (deletePost_rejected_at_once postId s fs).
  - by rewrite (deletePost_rejected_at_query postId s fs).
Qed.

Lemma deletePost_cut_short_witness :
  (faults (world (f_comments [true])) = [true]
   ∧ act_outcome (deletePost "p") (f_comments [true]) = Rejected Unavailable
   ∧ posts (world (act_exec (deletePost "p") (f_comments [true])))
     = posts (world (f_comments [true])))
  ∧ (faults (world (f_comments [false; true])) = [false; true]
     ∧ act_outcome (deletePost "p") (f_comments [false; true]) = Rejected Unavailable
     ∧ posts (world (act_exec (deletePost "p") (f_comments [false; true])))
       = delete "p" (posts (world (f_comments [false; true])))
     ∧ comments (act_exec (deletePost "p") (f_comments [false; true]))
       = comments (f_comments [false; true])).
Proof.
  split.
  - split; [reflexivity|].
    destruct (deletePost_cut_short "p" (f_comments [true]) []) as [Hfirst _].
    destruct (Hfirst eq_refl) as (Hout & Hposts & _). by split.
  - split; [reflexivity|].
    destruct (deletePost_cut_short "p" (f_comments [false; true]) []) as [_ Hquery].
    exact (Hquery eq_refl).
Defined.



Example one_rejected_comment_delete :
  let s' := act_exec (deletePost "p") (f_comments [false; false; true]) in
  (comments_where "p" (comments (f_comments []))).*1 = ["c1"; "c3"]
  ∧ act_outcome (deletePost "p") (f_comments [false; false; true]) = Rejected Unavailable
  ∧ is_Some (comments s' !! "c1") ∧ comments s' !! "c3" = None.
Proof. vm_compute. split; [done|]. split; [done|]. split; [by eexists|done]. Qed.

(** ** What an action leaves alone *)

Lemma preserves_served {X} (obs : World → X) : store_blind obs → preserves obs served.
Proof.
  intros [_ Hfaults] w. unfold exec, served.
  destruct (faults w) as [|[] fs]; cbn; by rewrite ?Hfaults.
Qed.

Section ActFrame.

Context {X : Type} (obs : Forum → X).

Lemma act_preserves_ret {A} (a : A) : act_preserves obs (mret a).
Proof. by intros s. Qed.

Lemma act_preserves_reject {A} e : act_preserves obs (@act_reject A e).
Proof. by intros s. Qed.

Lemma act_preserves_gets {A} (f : Forum → A) : act_preserves obs (act_gets f).
Proof. by intros s. Qed.

Lemma act_preserves_modify f : (∀ s, obs (f s) = obs s) → act_preserves obs (act_modify f).
Proof. intros Hf s. apply Hf. Qed.

Lemma act_preserves_bind {A B} (m : Action A) (k : A → Action B) :
  act_preserves obs m → (∀ a, act_preserves obs (k a)) → act_preserves obs (m ≫= k).
Proof.
  intros Hm Hk s. specialize (Hm s). unfold act_exec, mbind, Action_bind, act_bind in *.
  destruct (m s) as [[a|e] s']; cbn in *; [|done].
  rewrite <- Hm. apply Hk.
Qed.

Lemma act_preserves_promise_all {A} (ms : list (Action A)) :
  Forall (act_preserves obs) ms → act_preserves obs (promise_all ms).
Proof.
  induction 1 as [|m ms Hm _ IH]; intros s; [done|].
  specialize (Hm s). unfold act_preserves, act_exec in *. cbn [promise_all].
  destruct (m s) as [r s1]. specialize (IH s1).
  destruct (promise_all ms s1) as [rs s2]. cbn in *. by rewrite IH.
Qed.

End ActFrame.

Lemma act_preserves_lift {A X} (obs : World → X) (m : Promise A) :
  preserves obs m → act_preserves (λ s, obs (world s)) (lift m).
Proof. intros Hm s. apply Hm. Qed.

Lemma act_preserves_lift_comments {A} (m : Promise A) :
  act_preserves comments (lift m).
Proof. by intros s. Qed.

Lemma deleteDoc_comment_world {X} (obs : World → X) commentId :
  store_blind obs → act_preserves (λ s, obs (world s)) (deleteDoc_comment commentId).
Proof.
  intros Hblind. unfold deleteDoc_comment.
  apply act_preserves_bind; [by apply act_preserves_lift, preserves_served|intros _].
  by apply act_preserves_modify.
Qed.

Lemma deletePost_world {X} (obs : World → X) postId :
  store_blind obs → (∀ f w, obs (set_posts f w) = obs w) →
  act_preserves (λ s, obs (world s)) (deletePost postId).
Proof.
  intros Hblind Hposts. unfold deletePost.
  apply act_preserves_bind; [|intros _].
  { apply act_preserves_lift, preserves_bind; [by apply preserves_served|intros _].
    by apply preserves_modify. }
  apply act_preserves_bind; [by apply act_preserves_lift, preserves_served|intros _].
  apply act_preserves_bind; [apply act_preserves_gets|intros l].
  apply act_preserves_bind; [|intros; apply act_preserves_ret].
  apply act_preserves_promise_all, Forall_fmap, Forall_forall. intros d _.
  by apply deleteDoc_comment_world.
Qed.

Lemma deletePost_votes postId s :
  votes (world (act_exec (deletePost postId) s)) = votes (world s).
Proof. by apply (deletePost_world votes). Qed.

Lemma deletePost_available postId s :
  faults (world s) = [] →
  posts (world (act_exec (deletePost postId) s)) = delete postId (posts (world s))
  ∧ faults (world (act_exec (deletePost postId) s)) = [].
Proof.
  intros Hav. unfold act_exec. rewrite (deletePost_served postId s []) by auto.
  cbn. by rewrite drop_nil.
Qed.

(** X8.  [deletePost] deletes the post document and its comments and
    nothing else: whatever the store does, the vote records (those of the
    deleted post included), the notifications and both summary
    collections are as they were. *)
Theorem deletePost_leaves_votes_and_summaries :
  ∀ (postId : string) (s : Forum),
    let w' := world (act_exec (deletePost postId) s) in
    votes w' = votes (world s)
    ∧ notifications w' = notifications (world s)
    ∧ postSummaries w' = postSummaries (world s)
    ∧ commentSummaries w' = commentSummaries (world s).
Proof.
  intros postId s w'. subst w'.
  pose proof (deletePost_world
    (λ w, (votes w, notifications w, postSummaries w, commentSummaries w)) postId)
    as Hframe.
  specialize (Hframe ltac:(by split) ltac:(done) s). cbn in Hframe.
  by injection Hframe as -> -> -> ->.
Qed.

(** X9.  With the store available, a vote on a post that [deletePost]
    has deleted is rejected and does not bring the post back; the voter's
    record is still what it was before the deletion, so a repeated vote
    deletes it while the other votes leave the ledger alone. *)
Theorem vote_after_deletePost (postId : string) (s : Forum) (voter : string)
    (value : VoteValue) (Havailable : faults (world s) = []) :
  let w' := world (act_exec (deletePost postId) s) in
  previous_vote w' postId voter = previous_vote (world s) postId voter
  ∧ outcome (vote postId voter value) w' = Rejected NotFound
  ∧ posts (exec (vote postId voter value) w') !! postId = None
  ∧ votes (exec (vote postId voter value) w')
    = if decide (previous_vote (world s) postId voter = Some value)
      then delete (postId, voter) (votes (world s))
      else votes (world s).
Proof.
  intros w'.
  pose proof (deletePost_votes postId s) as Hvotes. fold w' in Hvotes.
  destruct (deletePost_available postId s Havailable) as [Hposts Hav'].
  fold w' in Hposts, Hav'.
  assert (posts w' !! postId = None) as Hgone by (rewrite Hposts; apply lookup_delete_eq).
  assert (previous_vote w' postId voter = previous_vote (world s) postId voter) as Hprev
    by (unfold previous_vote; by rewrite Hvotes).
  split; [done|]. split; [by rewrite vote_outcome, Hgone|].
  split; [by rewrite vote_posts, Hgone|].
  by rewrite vote_votes, Hgone, Hprev, Hvotes.
Qed.

Lemma vote_after_deletePost_witness :
  faults (world (f_comments [])) = []
  ∧ (let w' := world (act_exec (deletePost "p") (f_comments [])) in
     previous_vote w' "p" "alice" = previous_vote (world (f_comments [])) "p" "alice"
     ∧ outcome (vote "p" "alice" Up) w' = Rejected NotFound
     ∧ posts (exec (vote "p" "alice" Up) w') !! "p" = None
     ∧ votes (exec (vote "p" "alice" Up) w')
       = if decide (previous_vote (world (f_comments [])) "p" "alice" = Some Up)
         then delete ("p", "alice") (votes (world (f_comments [])))
         else votes (world (f_comments []))).
Proof.
  split; [reflexivity|].
  exact (vote_after_deletePost "p" (f_comments []) "alice" Up eq_refl).
Defined.

(** ** Comments *)

Lemma createComment_run trim p u a c s :
  createComment trim p u a c s
  = match faults (world s) with
    | true :: fs => (Rejected Unavailable, set_world (set_faults fs) s)
    | fs =>
        (Fulfilled tt,
         {| world := set_now (now (world s) + 1) (set_faults (tail fs) (world s));
            comments :=
              <[fresh (dom (comments s)) :=
                  {| cd_postId := p; cd_uid := u; cd_author := a;
                     cd_content := trim c; cd_createdAt := now (world s) |}]>
                (comments s) |})
    end.
Proof. destruct s as [[? ? ? ? ? ? [|[] ?] ? ?] cs]; reflexivity. Qed.

Lemma updateComment_run trim k c s :
  updateComment trim k c s
  = match faults (world s) with
    | true :: fs => (Rejected Unavailable, set_world (set_faults fs) s)
    | fs =>
        match comments s !! k with
        | Some d =>
            (Fulfilled tt,
             {| world := set_faults (tail fs) (world s);
                comments := <[k := set_content (trim c) d]> (comments s) |})
        | None => (Rejected NotFound, set_world (set_faults (tail fs)) s)
        end
    end.
Proof.
  destruct s as [[? ? ? ? ? ? [|[] ?] ? ?] cs]; run_action; by destruct (cs !! k).
Qed.

Lemma deleteComment_run k s :
  deleteComment k s
  = match faults (world s) with
    | true :: fs => (Rejected Unavailable, set_world (set_faults fs) s)
    | fs =>
        (Fulfilled tt,
         {| world := set_faults (tail fs) (world s); comments := delete k (comments s) |})
    end.
Proof. destruct s as [[? ? ? ? ? ? [|[] ?] ? ?] cs]; reflexivity. Qed.

Lemma fresh_comment_id s : comments s !! fresh (dom (comments s)) = None.
Proof. apply not_elem_of_dom, is_fresh. Qed.

(** X10.  [updateComment] changes the content of a comment and nothing
    else.  With the store available, on an id that no comment has it is
    rejected and writes nothing; on an existing comment it is fulfilled
    and the comment keeps its post, author, owner and creation time;
    every other comment is as it was. *)
Theorem updateComment_changes_content_only (trim : string → string) (s : Forum)
    (commentId c : string) (Havailable : faults (world s) = []) :
  let run := updateComment trim commentId c in
  match comments s !! commentId with
  | None =>
      act_outcome run s = Rejected NotFound ∧ comments (act_exec run s) = comments s
  | Some d =>
      act_outcome run s = Fulfilled tt
      ∧ comments (act_exec run s) !! commentId
        = Some {| cd_postId := cd_postId d; cd_uid := cd_uid d; cd_author := cd_author d;
                  cd_content := trim c; cd_createdAt := cd_createdAt d |}
  end
  ∧ (∀ k, k ≠ commentId → comments (act_exec run s) !! k = comments s !! k)
  ∧ world (act_exec run s) = world s.
Proof.
  intros run. subst run. unfold act_outcome, act_exec.
  rewrite updateComment_run, Havailable.
  destruct (comments s !! commentId) as [d|] eqn:Hd; cbn.
  - rewrite lookup_insert_eq. split; [done|]. split.
    + intros k Hk. by apply lookup_insert_ne.
    + destruct s as [[] ?]. cbn in *. by subst.
  - split; [done|]. split; [done|]. destruct s as [[] ?]. cbn in *. by subst.
Qed.

Lemma updateComment_changes_content_only_witness :
  faults (world (f_comments [])) = []
  ∧ (act_outcome (updateComment trim_spaces "c9" "x") (f_comments []) = Rejected NotFound
     ∧ comments (act_exec (updateComment trim_spaces "c9" "x") (f_comments []))
       = comments (f_comments []))
  ∧ (act_outcome (updateComment trim_spaces "c1" " Great ") (f_comments []) = Fulfilled tt
     ∧ comments (act_exec (updateComment trim_spaces "c1" " Great ") (f_comments [])) !! "c1"
       = Some {| cd_postId := "p"; cd_uid := "alice"; cd_author := "Alice";
                 cd_content := "Great"; cd_createdAt := 7 |}).
Proof.
  split; [reflexivity|].
  destruct (updateComment_changes_content_only trim_spaces (f_comments []) "c9" "x" eq_refl)
    as [Hmissing _].
  split; [exact Hmissing|].
  destruct (updateComment_changes_content_only trim_spaces (f_comments []) "c1" " Great "
              eq_refl) as [Hfound _].
  exact Hfound.
Defined.

(** X11.  With the store available, [deleteComment] is fulfilled whether
    or not the comment exists: afterwards no comment has the id and every
    other comment is as it was, so deleting a missing comment changes
    nothing and deleting twice is deleting once. *)
Theorem deleteComment_missing_or_twice (s : Forum) (commentId : string)
    (Havailable : faults (world s) = []) :
  let run := deleteComment commentId in
  act_outcome run s = Fulfilled tt
  ∧ comments (act_exec run s) = delete commentId (comments s)
  ∧ (comments s !! commentId = None → comments (act_exec run s) = comments s)
  ∧ act_outcome run (act_exec run s) = Fulfilled tt
  ∧ comments (act_exec run (act_exec run s)) = comments (act_exec run s).
Proof.
  intros run. subst run. unfold act_outcome, act_exec.
  rewrite !deleteComment_run, Havailable. cbn.
  split; [done|]. split; [done|]. split; [apply delete_id|].
  split; [done|]. apply delete_delete_eq.
Qed.

Lemma deleteComment_missing_or_twice_witness :
  faults (world (f_comments [])) = []
  ∧ (let run := deleteComment "c9" in
     act_outcome run (f_comments []) = Fulfilled tt
     ∧ comments (act_exec run (f_comments [])) = delete "c9" (comments (f_comments []))
     ∧ (comments (f_comments []) !! "c9" = None →
        comments (act_exec run (f_comments [])) = comments (f_comments []))
     ∧ act_outcome run (act_exec run (f_comments [])) = Fulfilled tt
     ∧ comments (act_exec run (act_exec run (f_comments [])))
       = comments (act_exec run (f_comments []))).
Proof.
  split; [reflexivity|].
  exact (deleteComment_missing_or_twice (f_comments []) "c9" eq_refl).
Defined.

(** ** What the listeners deliver *)

Lemma StronglySorted_weaken {A} (R R' : relation A) l :
  (∀ x y, R x y → R' x y) → StronglySorted R l → StronglySorted R' l.
Proof.
  intros HR. induction 1 as [|x l _ IH Hall]; constructor; [done|].
  eapply Forall_impl; [exact Hall|]. intros y. apply HR.
Qed.

Lemma oldest_first_total : Total oldest_first.
Proof.
  intros a b. unfold oldest_first.
  destruct (Z.lt_trichotomy (cd_createdAt a.2) (cd_createdAt b.2)) as [?|[Heq|?]];
    [by left; left| |by right; left].
  destruct (total String.le a.1 b.1); [left|right]; right; by rewrite Heq.
Qed.

Lemma oldest_first_trans : Transitive oldest_first.
Proof.
  intros a b c [Hab|[Hab Hab']] [Hbc|[Hbc Hbc']]; unfold oldest_first;
    [left; lia|left; lia|left; lia|].
  right. split; [lia|]. by etrans.
Qed.

Lemma newest_first_total : Total newest_first.
Proof.
  intros a b. unfold newest_first.
  destruct (Z.lt_trichotomy (createdAt a.2) (createdAt b.2)) as [?|[Heq|?]];
    [by right; left| |by left; left].
  destruct (total String.le a.1 b.1); [right|left]; right; by rewrite Heq.
Qed.

Lemma newest_first_trans : Transitive newest_first.
Proof.
  intros a b c [Hab|[Hab Hab']] [Hbc|[Hbc Hbc']]; unfold newest_first;
    [left; lia|left; lia|left; lia|].
  right. split; [lia|]. by etrans.
Qed.

Lemma subscribeToComments_elem postId s k d :
  (k, d) ∈ subscribeToComments postId s ↔ comments s !! k = Some d ∧ cd_postId d = postId.
Proof.
  unfold subscribeToComments.
  rewrite merge_sort_Permutation, list_elem_of_filter, elem_of_map_to_list. cbn. tauto.
Qed.

(** X12.  What [subscribeToComments] delivers for a post is exactly the
    comments of that post, each with its id and each once, the oldest
    first: no comment of the list is newer than one that follows it. *)
Theorem subscribeToComments_delivers_the_comments_oldest_first :
  ∀ (postId : string) (s : Forum),
    (∀ k d, (k, d) ∈ subscribeToComments postId s
            ↔ comments s !! k = Some d ∧ cd_postId d = postId)
    ∧ NoDup (subscribeToComments postId s).*1
    ∧ StronglySorted (λ a b, cd_createdAt a.2 ≤ cd_createdAt b.2)
        (subscribeToComments postId s).
Proof.
  intros postId s. split; [intros; apply subscribeToComments_elem|]. split.
  - unfold subscribeToComments. rewrite merge_sort_Permutation.
    apply (sublist_NoDup _ ((map_to_list (comments s)).*1));
      [apply NoDup_fst_map_to_list|apply fmap_sublist, sublist_filter].
  - apply (StronglySorted_weaken oldest_first).
    + intros a b [?|[? _]]; lia.
    + apply (@StronglySorted_merge_sort _ oldest_first _ oldest_first_trans
               oldest_first_total).
Qed.

(** X13.  What [subscribeToPosts] delivers is every post of the store,
    each with its id and each once, the newest first. *)
Theorem subscribeToPosts_delivers_every_post_newest_first :
  ∀ (w : World),
    (∀ k p, (k, p) ∈ subscribeToPosts w ↔ posts w !! k = Some p)
    ∧ NoDup (subscribeToPosts w).*1
    ∧ length (subscribeToPosts w) = size (posts w)
    ∧ StronglySorted (λ a b, createdAt b.2 ≤ createdAt a.2) (subscribeToPosts w).
Proof.
  intros w. unfold subscribeToPosts. split; [|split; [|split]].
  - intros k p. by rewrite merge_sort_Permutation, elem_of_map_to_list.
  - rewrite merge_sort_Permutation. apply NoDup_fst_map_to_list.
  - rewrite merge_sort_Permutation. apply length_map_to_list.
  - apply (StronglySorted_weaken newest_first).
    + intros a b [?|[? _]]; lia.
    + apply (@StronglySorted_merge_sort _ newest_first _ newest_first_trans
               newest_first_total).
Qed.

Example comments_of_a_post_oldest_first :
  (subscribeToComments "p" (f_comments [])).*1 = ["c3"; "c1"]
  ∧ (subscribeToComments "r" (f_comments [])).*1 = [].
Proof. vm_compute. done. Qed.

(** X14.  [createComment] does not look at the posts.  When the store
    serves the write it adds exactly one comment, under an id no comment
    had, with the post id, owner and author given, the trimmed content and
    the server time, whether or not a post with that id exists, and the
    listener of that post's comments now delivers it along with the ones
    it delivered before; when the store rejects the write no comment is
    added.  The posts are untouched either way. *)
Theorem createComment_adds_one_comment :
  ∀ (trim : string → string) (s : Forum) (postId u a c : string),
    let run := createComment trim postId u a c in
    let id := fresh (dom (comments s)) in
    let d := {| cd_postId := postId; cd_uid := u; cd_author := a;
                cd_content := trim c; cd_createdAt := now (world s) |} in
    posts (world (act_exec run s)) = posts (world s)
    ∧ match faults (world s) with
      | true :: _ =>
          act_outcome run s = Rejected Unavailable ∧ comments (act_exec run s) = comments s
      | _ =>
          act_outcome run s = Fulfilled tt
          ∧ comments s !! id = None
          ∧ comments (act_exec run s) = <[id := d]> (comments s)
          ∧ (id, d) ∈ subscribeToComments postId (act_exec run s)
          ∧ length (subscribeToComments postId (act_exec run s))
            = S (length (subscribeToComments postId s))
      end.
Proof.
  intros trim s postId u a c run id d. subst run. unfold act_outcome, act_exec.
  rewrite createComment_run. pose proof (fresh_comment_id s) as Hfresh. fold id in Hfresh.
  assert (∀ w', (id, d) ∈ subscribeToComments postId
                  {| world := w'; comments := <[id := d]> (comments s) |}) as Hin.
  { intros w'. apply subscribeToComments_elem. cbn. by rewrite lookup_insert_eq. }
  assert (∀ w', length (subscribeToComments postId
                          {| world := w'; comments := <[id := d]> (comments s) |})
                = S (length (subscribeToComments postId s))) as Hlen.
  { intros w'. unfold subscribeToComments. cbn.
    rewrite !merge_sort_Permutation, map_to_list_insert by done.
    by rewrite filter_cons_True. }
  destruct (faults (world s)) as [|[] fs] eqn:Hfs; cbn.
  - by destruct s as [[] ?].
  - by destruct s as [[] ?].
  - by destruct s as [[] ?].
Qed.

(** X23.  What the listeners of [subscribeToPostSummary] and
    [subscribeToCommentSummary] deliver is the latest summary of the post
    in their collection, [null] when the post has none; it is what
    [getPostSummary] and [getCommentSummary] resolve to whenever the store
    serves their query, while on a rejected query these resolve to
    [null]. *)
Theorem summary_listeners_deliver_the_latest :
  ∀ (postId : string) (w : World),
    is_latest_for postId (postSummaries w) (subscribeToPostSummary postId w)
    ∧ is_latest_for postId (commentSummaries w) (subscribeToCommentSummary postId w)
    ∧ outcome (getPostSummary postId) w
      = Fulfilled match faults w with
                  | true :: _ => None
                  | _ => subscribeToPostSummary postId w
                  end
    ∧ outcome (getCommentSummary postId) w
      = Fulfilled match faults w with
                  | true :: _ => None
                  | _ => subscribeToCommentSummary postId w
                  end.
Proof.
  intros postId w. split; [apply latest_for_is_latest|].
  split; [apply latest_for_is_latest|].
  by rewrite getPostSummary_run, getCommentSummary_run.
Qed.

(** ** The counters under every call of the service *)

Lemma in_step_covered w w' :
  (∀ q p', posts w' !! q = Some p' →
     ∃ p, posts w !! q = Some p ∧ upVotes p = upVotes p' ∧ downVotes p = downVotes p') →
  votes w' = votes w → in_step w → in_step w'.
Proof.
  intros Hposts Hvotes Hstep q p' Hq. rewrite Hvotes.
  destruct (Hposts q p' Hq) as (p & Hp & <- & <-). by apply Hstep.
Qed.

Lemma run_op_in_step trim op s :
  faults (world s) = [] → in_step (world s) →
  faults (world (act_exec (run_op trim op) s)) = []
  ∧ in_step (world (act_exec (run_op trim op) s)).
Proof.
  intros Hav Hstep. destruct op as [p u v|p t c|p|p u a c|k c|k|ty to from p]; cbn.
  - split; [by apply vote_faults|by apply vote_in_step].
  - unfold act_exec, lift. cbn. rewrite updatePost_run, Hav. cbn.
    destruct (posts (world s) !! p) as [post|] eqn:Hp; cbn; (split; [done|]);
      apply (in_step_covered (world s)); try done.
    + intros q p'. cbn. destruct (decide (q = p)) as [->|Hne].
      * rewrite lookup_insert_eq. intros [= <-]. by exists post.
      * rewrite lookup_insert_ne by done. intros Hq. by exists p'.
    + intros q p' Hq. by exists p'.
  - destruct (deletePost_available p s Hav) as [Hposts Hav'].
    split; [done|]. apply (in_step_covered (world s)); [|apply deletePost_votes|done].
    intros q p'. rewrite Hposts. intros [_ Hq]%lookup_delete_Some. by exists p'.
  - unfold act_exec. rewrite createComment_run, Hav. cbn. split; [done|].
    apply (in_step_covered (world s)); [|done|done]. intros q p' Hq. by exists p'.
  - unfold act_exec. rewrite updateComment_run, Hav.
    destruct (comments s !! k); cbn; (split; [done|]);
      apply (in_step_covered (world s)); try done; intros q p' Hq; by exists p'.
  - unfold act_exec. rewrite deleteComment_run, Hav. cbn. split; [done|].
    apply (in_step_covered (world s)); [|done|done]. intros q p' Hq. by exists p'.
  - unfold act_exec, lift. cbn.
    destruct (world s) as [ps vs ns pss css t fs tr gl] eqn:Hw. cbn in Hav. subst fs.
    split; [reflexivity|]. apply (in_step_covered (world s)); rewrite Hw; try done.
    intros q p' Hq. by exists p'.
Qed.

(** X15.  With the store available, no call of the service on posts,
    comments, votes or notifications can take a counter below zero: if
    each counter of each post is at least the number of vote records on
    the post with its value, the same holds after any sequence of [vote],
    [updatePost], [deletePost], [createComment], [updateComment],
    [deleteComment] and [createNotification] calls. *)
Theorem service_calls_keep_counters_in_step (trim : string → string)
    (ops : list ForumOp) (s : Forum)
    (Havailable : faults (world s) = []) (Hstep : in_step (world s)) :
  in_step (world (run_ops trim ops s))
  ∧ (∀ postId p, posts (world (run_ops trim ops s)) !! postId = Some p →
       0 ≤ upVotes p ∧ 0 ≤ downVotes p).
Proof.
  assert (in_step (world (run_ops trim ops s))) as Hstep'.
  { revert s Havailable Hstep. induction ops as [|op ops IH]; intros s Hav Hstep; [done|].
    cbn. destruct (run_op_in_step trim op s Hav Hstep). by apply IH. }
  split; [done|]. intros postId p Hp. destruct (Hstep' postId p Hp). lia.
Qed.

Lemma in_step_f_voted : in_step (world f_voted).
Proof.
  intros q p Hq. unfold f_voted, w_voted, world_of in Hq. cbn [world posts] in Hq.
  apply lookup_singleton_Some in Hq as [<- <-]. vm_compute. split; discriminate.
Qed.

Lemma service_calls_keep_counters_in_step_witness :
  let ops := [OpVote "p" "bob" Down; OpUpdatePost "p" " Wind " "Turbines";
              OpCreateComment "p" "bob" "Bob" "Nice"; OpVote "p" "alice" Up;
              OpDeletePost "p"; OpVote "p" "bob" Down] in
  faults (world f_voted) = [] ∧ in_step (world f_voted)
  ∧ in_step (world (run_ops trim_spaces ops f_voted))
  ∧ (∀ postId p, posts (world (run_ops trim_spaces ops f_voted)) !! postId = Some p →
       0 ≤ upVotes p ∧ 0 ≤ downVotes p).
Proof.
  intros ops. split; [reflexivity|]. split; [exact in_step_f_voted|].
  exact (service_calls_keep_counters_in_step trim_spaces ops f_voted eq_refl
           in_step_f_voted).
Defined.

(** * The layouts of a user *)

Import FirestoreService.

Ltac run_call :=
  unfold result, after, testConnection, addDocument, getDocumentsByField, saveUserLayout,
    getUserLayout, updateUserLayout, saveEnhancedUserLayout, getEnhancedUserLayout,
    updateEnhancedUserLayout, rethrowing, catch, new_Date, store_call;
  unfold mbind, mret, Call_bind, Call_ret, bind, ret, throw, reads, writes;
  cbn.

(** X16.  Without a signed-in user nothing is saved: [addDocument],
    [saveUserLayout] and [saveEnhancedUserLayout] throw before they read
    the clock or call the store, and leave the store as it was. *)
Theorem saving_needs_a_signed_in_user (dateAt : nat → Z) (db : Db)
    (Hsignedout : currentUser db = None) :
  (∀ doc, addDocument doc db = (Threw MustBeAuthenticated, db))
  ∧ (∀ data, saveUserLayout dateAt data db = (Threw MustBeAuthenticated, db))
  ∧ (∀ data, saveEnhancedUserLayout dateAt data db = (Threw MustBeAuthenticated, db)).
Proof.
  destruct db as [uls ls user fs n]. cbn in Hsignedout. subst user.
  repeat split.
Qed.

Lemma saving_needs_a_signed_in_user_witness :
  currentUser (db_of None [false]) = None
  ∧ (∀ doc, addDocument doc (db_of None [false])
            = (Threw MustBeAuthenticated, db_of None [false]))
  ∧ (∀ data, saveUserLayout clock_of_day data (db_of None [false])
             = (Threw MustBeAuthenticated, db_of None [false]))
  ∧ (∀ data, saveEnhancedUserLayout clock_of_day data (db_of None [false])
             = (Threw MustBeAuthenticated, db_of None [false])).
Proof.
  split; [reflexivity|].
  exact (saving_needs_a_signed_in_user clock_of_day (db_of None [false]) eq_refl).
Defined.

Lemma by_id_trans {D} : Transitive (@by_id D).
Proof. intros a b c. unfold by_id. apply transitivity. Qed.

Lemma by_id_total {D} : Total (@by_id D).
Proof. intros a b. unfold by_id. apply total, _. Qed.

Lemma StronglySorted_filter {A} (R : relation A) (P : A → Prop) `{∀ x, Decision (P x)} l :
  StronglySorted R l → StronglySorted R (filter P l).
Proof.
  induction 1 as [|x l _ IH Hall]; [constructor|].
  rewrite filter_cons. case_decide; [|done].
  constructor; [done|]. apply Forall_forall. intros y [_ Hy]%list_elem_of_filter.
  rewrite Forall_forall in Hall. by apply Hall.
Qed.

Lemma getUserLayout_run uid db :
  result (getUserLayout uid) db
  = match rejections db with
    | true :: _ => Threw StoreRejected
    | _ => Returned (head (filter (λ kv, userId kv.2 = uid) (docs_by_id (user_layouts db))))
    end.
Proof. destruct db as [uls ls user [|[] fs] n]; reflexivity. Qed.

Lemma first_layout_of_user uid (m : gmap string UserLayout) :
  match head (filter (λ kv, userId kv.2 = uid) (docs_by_id m)) with
  | None => ∀ k d, m !! k = Some d → userId d ≠ uid
  | Some (k, d) =>
      m !! k = Some d ∧ userId d = uid
      ∧ ∀ k' d', m !! k' = Some d' → userId d' = uid → String.le k k'
  end.
Proof.
  assert (∀ k d, (k, d) ∈ filter (λ kv, userId kv.2 = uid) (docs_by_id m)
                 ↔ m !! k = Some d ∧ userId d = uid) as Helem.
  { intros k d. unfold docs_by_id.
    rewrite list_elem_of_filter, merge_sort_Permutation, elem_of_map_to_list. cbn. tauto. }
  assert (StronglySorted by_id (filter (λ kv, userId kv.2 = uid) (docs_by_id m)))
    as Hsorted.
  { apply StronglySorted_filter.
    apply (@StronglySorted_merge_sort _ by_id _ by_id_trans by_id_total). }
  destruct (filter _ (docs_by_id m)) as [|[k d] l]; cbn.
  - intros k d Hd Hu. by apply (elem_of_nil (k, d)), Helem.
  - destruct (proj1 (Helem k d) (list_elem_of_here _ _)) as [Hd Hu].
    split; [done|]. split; [done|]. intros k' d' Hd' Hu'.
    apply StronglySorted_inv in Hsorted as [_ Hall].
    pose proof (proj2 (Helem k' d') (conj Hd' Hu')) as Hin.
    apply elem_of_cons in Hin as [Heq|Hin].
    + by injection Heq as -> ->.
    + rewrite Forall_forall in Hall. apply (Hall (k', d') Hin).
Qed.

(** X17.  [getUserLayout] throws when the store rejects the query.
    Otherwise it returns [null] exactly when no layout is saved for the
    user, and else one of the user's layouts: the one with the least
    document id, whichever was saved last. *)
Theorem getUserLayout_returns_the_least_id :
  ∀ (uid : string) (db : Db),
    match rejections db with
    | true :: _ => result (getUserLayout uid) db = Threw StoreRejected
    | _ =>
        ∃ r, result (getUserLayout uid) db = Returned r
             ∧ match r with
               | None => ∀ k d, user_layouts db !! k = Some d → userId d ≠ uid
               | Some (k, d) =>
                   user_layouts db !! k = Some d ∧ userId d = uid
                   ∧ ∀ k' d', user_layouts db !! k' = Some d' → userId d' = uid →
                       String.le k k'
               end
    end.
Proof.
  intros uid db. rewrite getUserLayout_run.
  pose proof (first_layout_of_user uid (user_layouts db)) as Hfirst.
  destruct (rejections db) as [|[] fs]; [|done|]; eexists; by split.
Qed.

Example the_older_layout_is_returned :
  let db1 := after (saveUserLayout clock_of_day (a_layout "first")) (db_of (Some "u1") []) in
  let db2 := after (saveUserLayout clock_of_day (a_layout "second")) db1 in
  (λ r, name (layoutData r.2)) <$> match result (getUserLayout "u1") db2 with
                                   | Returned r => r
                                   | Threw _ => None
                                   end
  = Some "first".
Proof. vm_compute. done. Qed.

Lemma saveUserLayout_run dateAt data db uid :
  currentUser db = Some uid → rejections db = [] →
  saveUserLayout dateAt data db
  = (Returned (fresh (dom (user_layouts db))),
     {| user_layouts :=
          <[fresh (dom (user_layouts db)) :=
              {| userId := uid; layoutData := data;
                 createdAt := dateAt (dates_read db);
                 updatedAt := dateAt (S (dates_read db)) |}]> (user_layouts db);
        layouts := layouts db; currentUser := Some uid; rejections := [];
        dates_read := S (S (dates_read db)) |}).
Proof.
  destruct db as [uls ls user fs n]. cbn. intros -> ->. reflexivity.
Qed.

(** X18.  With a user signed in and the store available, [saveUserLayout]
    returns an id no layout had and stores under it the layout given,
    with the uid of the signed-in user; every layout saved before is
    still there, and [getUserLayout] for that user then finds a layout of
    the user. *)
Theorem saveUserLayout_saves_for_the_signed_in_user (dateAt : nat → Z) (db : Db)
    (uid : string) (data : LayoutData)
    (Hsignedin : currentUser db = Some uid) (Havailable : rejections db = []) :
  let db' := after (saveUserLayout dateAt data) db in
  ∃ id, result (saveUserLayout dateAt data) db = Returned id
        ∧ user_layouts db !! id = None
        ∧ (∃ d, user_layouts db' !! id = Some d ∧ userId d = uid ∧ layoutData d = data)
        ∧ (∀ k d, user_layouts db !! k = Some d → user_layouts db' !! k = Some d)
        ∧ layouts db' = layouts db
        ∧ ∃ k d, result (getUserLayout uid) db' = Returned (Some (k, d)) ∧ userId d = uid.
Proof.
  intros db'. subst db'. unfold result, after.
  rewrite (saveUserLayout_run dateAt data db uid) by done. cbn.
  set (id := fresh (dom (user_layouts db))).
  assert (user_layouts db !! id = None) as Hfresh by apply not_elem_of_dom, is_fresh.
  exists id. split; [done|]. split; [done|]. split.
  { eexists. by rewrite lookup_insert_eq. }
  split.
  { intros k d Hd. rewrite lookup_insert_ne; [done|]. intros <-. congruence. }
  split; [done|].
  match goal with |- ∃ k d, (getUserLayout uid ?db1).1 = _ ∧ _ => set (db' := db1) end.
  change ((getUserLayout uid db').1) with (result (getUserLayout uid) db').
  rewrite getUserLayout_run. cbn.
  pose proof (first_layout_of_user uid (user_layouts db')) as Hfirst.
  destruct (head _) as [[k d]|].
  - exists k, d. split; [done|]. by destruct Hfirst as (_ & ? & _).
  - exfalso. eapply (Hfirst id); [apply lookup_insert_eq|done].
Qed.

Lemma saveUserLayout_saves_for_the_signed_in_user_witness :
  currentUser (db_of (Some "u1") []) = Some "u1" ∧ rejections (db_of (Some "u1") []) = []
  ∧ (let db' := after (saveUserLayout clock_of_day (a_layout "home")) (db_of (Some "u1") []) in
     ∃ id, result (saveUserLayout clock_of_day (a_layout "home")) (db_of (Some "u1") [])
           = Returned id
           ∧ user_layouts (db_of (Some "u1") []) !! id = None
           ∧ (∃ d, user_layouts db' !! id = Some d ∧ userId d = "u1"
                   ∧ layoutData d = a_layout "home")
           ∧ (∀ k d, user_layouts (db_of (Some "u1") []) !! k = Some d →
                     user_layouts db' !! k = Some d)
           ∧ layouts db' = layouts (db_of (Some "u1") [])
           ∧ ∃ k d, result (getUserLayout "u1") db' = Returned (Some (k, d))
                    ∧ userId d = "u1").
Proof.
  split; [reflexivity|]. split; [reflexivity|].
  exact (saveUserLayout_saves_for_the_signed_in_user clock_of_day (db_of (Some "u1") [])
           "u1" (a_layout "home") eq_refl eq_refl).
Defined.

Lemma saveEnhancedUserLayout_run dateAt data db uid :
  currentUser db = Some uid → rejections db = [] →
  saveEnhancedUserLayout dateAt data db
  = (Returned tt,
     {| user_layouts := user_layouts db;
        layouts :=
          <[uid := {| e_userId := uid; e_data := data;
                      e_createdAt := dateAt (dates_read db);
                      e_updatedAt := dateAt (S (dates_read db)) |}]> (layouts db);
        currentUser := Some uid; rejections := [];
        dates_read := S (S (dates_read db)) |}).
Proof.
  destruct db as [uls ls user fs n]. cbn. intros -> ->. reflexivity.
Qed.

Lemma getEnhancedUserLayout_run uid db :
  result (getEnhancedUserLayout uid) db
  = match rejections db with
    | true :: _ => Threw StoreRejected
    | _ => Returned ((λ d, (uid, d)) <$> layouts db !! uid)
    end.
Proof. destruct db as [uls ls user [|[] fs] n]; reflexivity. Qed.

(** X19.  With a user signed in and the store available, what
    [saveEnhancedUserLayout] saves is what [getEnhancedUserLayout] then
    returns for that user, under the uid as id.  A second save replaces
    the first, so a user never has more than one enhanced layout, and the
    layouts of other users are untouched. *)
Theorem enhanced_layout_round_trip (dateAt : nat → Z) (db : Db) (uid : string)
    (first second : EnhancedData)
    (Hsignedin : currentUser db = Some uid) (Havailable : rejections db = []) :
  let db1 := after (saveEnhancedUserLayout dateAt first) db in
  let db2 := after (saveEnhancedUserLayout dateAt second) db1 in
  (∃ d, result (getEnhancedUserLayout uid) db1 = Returned (Some (uid, d))
        ∧ e_data d = first ∧ e_userId d = uid)
  ∧ (∃ d, result (getEnhancedUserLayout uid) db2 = Returned (Some (uid, d))
          ∧ e_data d = second ∧ e_userId d = uid)
  ∧ size (layouts db2) = size (layouts db1)
  ∧ (∀ other, other ≠ uid → layouts db2 !! other = layouts db !! other)
  ∧ user_layouts db2 = user_layouts db.
Proof.
  intros db1 db2.
  assert (db1 = (saveEnhancedUserLayout dateAt first db).2) as Hdb1 by done.
  rewrite (saveEnhancedUserLayout_run dateAt first db uid) in Hdb1 by done.
  cbn in Hdb1.
  assert (db2 = (saveEnhancedUserLayout dateAt second db1).2) as Hdb2 by done.
  rewrite (saveEnhancedUserLayout_run dateAt second db1 uid) in Hdb2
    by (by rewrite Hdb1).
  cbn in Hdb2. clearbody db1 db2.
  rewrite !getEnhancedUserLayout_run.
  split; [|split; [|split; [|split]]].
  - rewrite Hdb1. cbn. rewrite lookup_insert_eq. by eexists.
  - rewrite Hdb2. cbn. rewrite lookup_insert_eq. by eexists.
  - rewrite Hdb2. cbn. apply map_size_insert_Some.
    rewrite Hdb1. cbn. rewrite lookup_insert_eq. by eexists.
  - intros other Hne. rewrite Hdb2. cbn. rewrite lookup_insert_ne by done.
    rewrite Hdb1. cbn. by rewrite lookup_insert_ne.
  - rewrite Hdb2. cbn. by rewrite Hdb1.
Qed.

Lemma enhanced_layout_round_trip_witness :
  currentUser (db_of (Some "u1") []) = Some "u1" ∧ rejections (db_of (Some "u1") []) = []
  ∧ (let db1 := after (saveEnhancedUserLayout clock_of_day (a_home "flat"))
                  (db_of (Some "u1") []) in
     let db2 := after (saveEnhancedUserLayout clock_of_day (a_home "house")) db1 in
     (∃ d, result (getEnhancedUserLayout "u1") db1 = Returned (Some ("u1", d))
           ∧ e_data d = a_home "flat" ∧ e_userId d = "u1")
     ∧ (∃ d, result (getEnhancedUserLayout "u1") db2 = Returned (Some ("u1", d))
             ∧ e_data d = a_home "house" ∧ e_userId d = "u1")
     ∧ size (layouts db2) = size (layouts db1)
     ∧ (∀ other, other ≠ "u1" →
          layouts db2 !! other = layouts (db_of (Some "u1") []) !! other)
     ∧ user_layouts db2 = user_layouts (db_of (Some "u1") [])).
Proof.
  split; [reflexivity|]. split; [reflexivity|].
  exact (enhanced_layout_round_trip clock_of_day (db_of (Some "u1") []) "u1"
           (a_home "flat") (a_home "house") eq_refl eq_refl).
Defined.

Lemma updateEnhancedUserLayout_run dateAt uid u db :
  rejections db = [] →
  updateEnhancedUserLayout dateAt uid u db
  = let db1 := {| user_layouts := user_layouts db; layouts := layouts db;
                  currentUser := currentUser db; rejections := [];
                  dates_read := S (dates_read db) |} in
    match layouts db !! uid with
    | Some d =>
        (Returned tt,
         set_layouts (insert uid (apply_enhanced_updates u (dateAt (dates_read db)) d)) db1)
    | None => (Threw NoDocument, db1)
    end.
Proof.
  destruct db as [uls ls user fs n]. cbn. intros ->. run_call. by destruct (ls !! uid).
Qed.

Lemma updateUserLayout_run dateAt k u db :
  rejections db = [] →
  updateUserLayout dateAt k u db
  = let db1 := {| user_layouts := user_layouts db; layouts := layouts db;
                  currentUser := currentUser db; rejections := [];
                  dates_read := S (dates_read db) |} in
    match user_layouts db !! k with
    | Some d =>
        (Returned tt,
         set_user_layouts (insert k (apply_updates u (dateAt (dates_read db)) d)) db1)
    | None => (Threw NoDocument, db1)
    end.
Proof.
  destruct db as [uls ls user fs n]. cbn. intros ->. run_call. by destruct (uls !! k).
Qed.

(** X20.  With the store available, [updateEnhancedUserLayout] for a user
    without an enhanced layout throws and writes nothing.  For a user
    with one it replaces exactly the fields the update carries and the
    update time: the fields left out, the user id and the creation time
    stay, and [getEnhancedUserLayout] then returns the updated layout. *)
Theorem updateEnhancedUserLayout_missing_or_partial (dateAt : nat → Z) (db : Db)
    (uid : string) (u : EnhancedUpdates) (Havailable : rejections db = []) :
  let run := updateEnhancedUserLayout dateAt uid u in
  match layouts db !! uid with
  | None => result run db = Threw NoDocument ∧ layouts (after run db) = layouts db
  | Some d =>
      result run db = Returned tt
      ∧ ∃ d', result (getEnhancedUserLayout uid) (after run db) = Returned (Some (uid, d'))
              ∧ (e_userId d', e_createdAt d') = (e_userId d, e_createdAt d)
              ∧ e_updatedAt d' = dateAt (dates_read db)
              ∧ layoutName (e_data d')
                = match up_layoutName u with Some n => n | None => layoutName (e_data d) end
              ∧ e_area (e_data d')
                = match up_e_area u with Some a => a | None => e_area (e_data d) end
              ∧ rooms (e_data d')
                = match up_rooms u with Some r => r | None => rooms (e_data d) end
  end
  ∧ (∀ other, other ≠ uid → layouts (after run db) !! other = layouts db !! other).
Proof.
  intros run. subst run.
  pose proof (updateEnhancedUserLayout_run dateAt uid u db Havailable) as Hrun.
  cbn zeta in Hrun.
  destruct (layouts db !! uid) as [d|] eqn:Hd.
  - rewrite getEnhancedUserLayout_run. unfold result, after. rewrite Hrun. cbn. split.
    + split; [done|]. rewrite lookup_insert_eq. eexists. split; [done|].
      cbn. by destruct (up_layoutName u), (up_e_area u), (up_rooms u).
    + intros other Hne. by apply lookup_insert_ne.
  - unfold result, after. by rewrite Hrun.
Qed.

Lemma updateEnhancedUserLayout_missing_or_partial_witness :
  let db1 := after (saveEnhancedUserLayout clock_of_day (a_home "flat"))
               (db_of (Some "u1") []) in
  let u := {| up_layoutName := Some "house"; up_e_area := None; up_rooms := None |} in
  rejections db1 = []
  ∧ (result (updateEnhancedUserLayout clock_of_day "u2" u) db1 = Threw NoDocument
     ∧ layouts (after (updateEnhancedUserLayout clock_of_day "u2" u) db1) = layouts db1)
  ∧ result (updateEnhancedUserLayout clock_of_day "u1" u) db1 = Returned tt.
Proof.
  intros db1 u. split; [reflexivity|].
  destruct (updateEnhancedUserLayout_missing_or_partial clock_of_day db1 "u2" u eq_refl)
    as [Hmissing _].
  split; [exact Hmissing|].
  destruct (updateEnhancedUserLayout_missing_or_partial clock_of_day db1 "u1" u eq_refl)
    as [[Hfound _] _].
  exact Hfound.
Defined.

(** X21.  With the store available, [updateUserLayout] on an id that no
    layout has throws and writes nothing.  On an existing layout it
    replaces exactly the sections, name and area that the update carries
    and the update time; the owner, the source, the blueprint, the type
    and the creation time stay, and so does every other layout. *)
Theorem updateUserLayout_missing_or_partial (dateAt : nat → Z) (db : Db)
    (layoutId : string) (u : LayoutUpdates) (Havailable : rejections db = []) :
  let run := updateUserLayout dateAt layoutId u in
  match user_layouts db !! layoutId with
  | None => result run db = Threw NoDocument ∧ user_layouts (after run db) = user_layouts db
  | Some d =>
      result run db = Returned tt
      ∧ ∃ d', user_layouts (after run db) !! layoutId = Some d'
              ∧ (userId d', createdAt d') = (userId d, createdAt d)
              ∧ (source (layoutData d'), blueprintId (layoutData d'), type (layoutData d'))
                = (source (layoutData d), blueprintId (layoutData d), type (layoutData d))
              ∧ updatedAt d' = dateAt (dates_read db)
              ∧ sections (layoutData d')
                = match up_sections u with Some x => x | None => sections (layoutData d) end
              ∧ name (layoutData d')
                = match up_name u with Some x => x | None => name (layoutData d) end
              ∧ area (layoutData d')
                = match up_area u with Some x => x | None => area (layoutData d) end
  end
  ∧ (∀ other, other ≠ layoutId →
       user_layouts (after run db) !! other = user_layouts db !! other).
Proof.
  intros run. subst run. unfold result, after.
  rewrite updateUserLayout_run by done. cbn zeta.
  destruct (user_layouts db !! layoutId) as [d|] eqn:Hd; cbn.
  - split.
    + split; [done|]. rewrite lookup_insert_eq. eexists. split; [done|].
      cbn. by destruct (up_sections u), (up_name u), (up_area u).
    + intros other Hne. by apply lookup_insert_ne.
  - done.
Qed.

Lemma updateUserLayout_missing_or_partial_witness :
  let db1 := after (saveUserLayout clock_of_day (a_layout "home")) (db_of (Some "u1") []) in
  let u := {| up_sections := None; up_name := Some "cabin"; up_area := Some 40 |} in
  rejections db1 = []
  ∧ (result (updateUserLayout clock_of_day "nope" u) db1 = Threw NoDocument
     ∧ user_layouts (after (updateUserLayout clock_of_day "nope" u) db1) = user_layouts db1)
  ∧ result (updateUserLayout clock_of_day (fresh (∅ : gset string)) u) db1 = Returned tt.
Proof.
  intros db1 u. split; [reflexivity|].
  destruct (updateUserLayout_missing_or_partial clock_of_day db1 "nope" u eq_refl)
    as [Hmissing _].
  split; [exact Hmissing|].
  destruct (updateUserLayout_missing_or_partial clock_of_day db1 (fresh (∅ : gset string)) u
              eq_refl) as [[Hfound _] _].
  exact Hfound.
Defined.

(** X22.  [testConnection] never throws and never returns [false]: it
    returns [true] when the store serves its read and also when the
    store rejects it. *)
Theorem testConnection_always_true :
  ∀ (db : Db),
    result testConnection db = Returned true
    ∧ user_layouts (after testConnection db) = user_layouts db
    ∧ layouts (after testConnection db) = layouts db
    ∧ rejections (after testConnection db) = tail (rejections db).
Proof. intros [uls ls user [|[] fs] n]; done. Qed.
